(** * vscode-docker: the patterns, the image quick pick and the Compose
      document engine

    Part I holds the programs:

    - [JsString]: strings as sequences of UTF-16 code units;
    - [Regex]: regular expressions, run by a backtracking matcher written
      after the ECMAScript matcher;
    - [DockerExtension]: the constants of [dockerExtension.ts];
    - [Glob]: the glob patterns the editor matches document paths with;
    - [QuickPickImage]: [commands/utils/quick-pick-image.ts];
    - [Lines], [Dockerfile], [Compose]: the document engine, after the
      specification where the sources are not at hand.

    Part II holds what the programs are checked against: what a pattern
    recognizes, the shapes of FROM lines and of file names, the invariant
    of the Compose parser, the cursor on a key and the entry that
    describes a key.  Part III holds the theorems. *)

From Stdlib Require Import ZArith NArith Lia Bool Ascii String.
From stdpp Require Import base list.

Local Open Scope nat_scope.

(** * Part I: the programs *)

(** ** Strings *)

Module JsString.

(** A JavaScript string is a sequence of 16-bit code units. *)
Definition cu := N.
Definition jsstring := list cu.

Definition of_ascii (a : ascii) : cu := N_of_ascii a.

Fixpoint str (s : string) : jsstring :=
  match s with
  | EmptyString => []
  | String a t => of_ascii a :: str t
  end.

Definition cu_eqb (a b : cu) : bool := N.eqb a b.

Fixpoint jseqb (a b : jsstring) : bool :=
  match a, b with
  | [], [] => true
  | x :: a', y :: b' => cu_eqb x y && jseqb a' b'
  | _, _ => false
  end.

Definition in_range (lo hi c : cu) : bool := (N.leb lo c && N.leb c hi)%N.
Arguments cu_eqb (a b)%_N.
Arguments in_range (lo hi c)%_N.

Definition is_lower (c : cu) : bool := in_range 97 122 c.
Definition is_upper (c : cu) : bool := in_range 65 90 c.
Definition is_alpha (c : cu) : bool := is_lower c || is_upper c.
Definition is_digit (c : cu) : bool := in_range 48 57 c.

(** [String.prototype.toUpperCase] and [toLowerCase] on the ASCII letters.
    The patterns and keywords of the extension are ASCII; ECMAScript's
    Canonicalize never maps a code unit above 127 to one below 128, so
    the other code units are left alone. *)
Definition to_upper (c : cu) : cu := if is_lower c then (c - 32)%N else c.
Definition to_lower (c : cu) : cu := if is_upper c then (c + 32)%N else c.

(** The class [\w]. *)
Definition is_word (c : cu) : bool := is_alpha c || is_digit c || cu_eqb c 95.

(** The class [\s]: ECMAScript WhiteSpace and LineTerminator. *)
Definition is_space (c : cu) : bool :=
  in_range 9 13 c || cu_eqb c 32 || cu_eqb c 160 || cu_eqb c 5760
  || in_range 8192 8202 c || cu_eqb c 8232 || cu_eqb c 8233
  || cu_eqb c 8239 || cu_eqb c 8287 || cu_eqb c 12288 || cu_eqb c 65279.

End JsString.
Import JsString.

(** ** Regular expressions *)

Module Regex.

(** The members of a character class. *)
Inductive atom :=
| AChar (c : cu)
| ARange (lo hi : cu)
| AWord
| ASpace.
Arguments AChar c%_N.
Arguments ARange (lo hi)%_N.

Inductive regex :=
| Empty
| Lit (c : cu)
| Class (items : list atom)
| NotClass (items : list atom)
| Seq (r1 r2 : regex)
| Alt (r1 r2 : regex)
| Star (r : regex)
| Group (n : nat) (r : regex)
| Bol
| Eol.

(** [r?] and [r+], both greedy. *)
Definition Opt (r : regex) : regex := Alt r Empty.
Definition Plus (r : regex) : regex := Seq r (Star r).

(** A run of literal characters. *)
Fixpoint lits (w : jsstring) : regex :=
  match w with
  | [] => Empty
  | [c] => Lit c
  | c :: t => Seq (Lit c) (lits t)
  end.

Declare Scope regex_scope.
Delimit Scope regex_scope with re.
Notation "r1 +> r2" := (Seq r1 r2) (at level 60, right associativity) : regex_scope.

(** A regular expression literal: the pattern and the [i] flag. *)
Record RegExp := { source : regex; ignoreCase : bool }.

(** *** Characters *)

(** With the [i] flag two characters match when they canonicalize to the
    same code unit. *)
Definition char_eq (i : bool) (a c : cu) : bool :=
  if i then cu_eqb (to_upper a) (to_upper c) else cu_eqb a c.

Definition atom_matches (i : bool) (c : cu) (a : atom) : bool :=
  match a with
  | AChar a => char_eq i a c
  | ARange lo hi =>
      if i then in_range lo hi c || in_range lo hi (to_upper c)
                || in_range lo hi (to_lower c)
      else in_range lo hi c
  | AWord => is_word c
  | ASpace => is_space c
  end.

Definition class_matches (i : bool) (items : list atom) (c : cu) : bool :=
  existsb (atom_matches i c) items.

(** *** The backtracking matcher *)

Record MatchState := {
  endIndex : nat;
  rest : jsstring;
  captures : list (nat * jsstring)
}.

Definition Continuation := MatchState -> option MatchState.

Definition advance (x : MatchState) (t : jsstring) : MatchState :=
  {| endIndex := S (endIndex x); rest := t; captures := captures x |}.

Definition set_capture (n : nat) (s : jsstring) (x : MatchState) : MatchState :=
  {| endIndex := endIndex x; rest := rest x;
     captures := (n, s) :: List.filter (fun p => negb (Nat.eqb (fst p) n)) (captures x) |}.

Fixpoint groups (r : regex) : list nat :=
  match r with
  | Seq r1 r2 | Alt r1 r2 => groups r1 ++ groups r2
  | Star r => groups r
  | Group n r => n :: groups r
  | _ => []
  end.

Definition clear_captures (gs : list nat) (x : MatchState) : MatchState :=
  {| endIndex := endIndex x; rest := rest x;
     captures := List.filter (fun p => negb (existsb (Nat.eqb (fst p)) gs)) (captures x) |}.

Definition capture (n : nat) (x : MatchState) : option jsstring :=
  snd <$> find (fun p => Nat.eqb (fst p) n) (captures x).

(** RepeatMatcher for [r*]: at each round the captures of the body are
    reset, the body is tried first (greedy) and an iteration that
    consumes nothing is refused.  Every accepted iteration shortens the
    remaining input, so [length (rest x)] rounds are enough. *)
Fixpoint repeat_matcher (body : MatchState -> Continuation -> option MatchState)
    (gs : list nat) (n : nat) (x : MatchState) (k : Continuation)
    : option MatchState :=
  match n with
  | 0 => k x
  | S n' =>
      match body (clear_captures gs x)
              (fun y => if length (rest y) <? length (rest x)
                        then repeat_matcher body gs n' y k
                        else None) with
      | Some z => Some z
      | None => k x
      end
  end.

Fixpoint matcher (i : bool) (r : regex) (x : MatchState) (k : Continuation)
    {struct r} : option MatchState :=
  match r with
  | Empty => k x
  | Lit a =>
      match rest x with
      | c :: t => if char_eq i a c then k (advance x t) else None
      | [] => None
      end
  | Class items =>
      match rest x with
      | c :: t => if class_matches i items c then k (advance x t) else None
      | [] => None
      end
  | NotClass items =>
      match rest x with
      | c :: t => if class_matches i items c then None else k (advance x t)
      | [] => None
      end
  | Seq r1 r2 => matcher i r1 x (fun y => matcher i r2 y k)
  | Alt r1 r2 =>
      match matcher i r1 x k with
      | Some z => Some z
      | None => matcher i r2 x k
      end
  | Star r' => repeat_matcher (matcher i r') (groups r') (length (rest x)) x k
  | Group n r' =>
      matcher i r' x
        (fun y => k (set_capture n (take (endIndex y - endIndex x) (rest x)) y))
  | Bol => if Nat.eqb (endIndex x) 0 then k x else None
  | Eol => match rest x with [] => k x | _ :: _ => None end
  end.

(** [RegExp.prototype.exec] without the [g] and [y] flags: the first start
    index, from 0 on, at which the pattern matches. *)
Fixpoint scan (i : bool) (r : regex) (idx : nat) (s : jsstring)
    : option (nat * MatchState) :=
  match matcher i r {| endIndex := idx; rest := s; captures := [] |} Some with
  | Some y => Some (idx, y)
  | None =>
      match s with
      | [] => None
      | _ :: t => scan i r (S idx) t
      end
  end.

Definition exec (re : RegExp) (s : jsstring) : option (nat * MatchState) :=
  scan (ignoreCase re) (source re) 0 s.

Definition test (re : RegExp) (s : jsstring) : bool :=
  match exec re s with Some _ => true | None => false end.

(** The capture group [n] of a match, [undefined] as [None]. *)
Definition group_of (res : option (nat * MatchState)) (n : nat) : option jsstring :=
  match res with
  | Some (_, y) => capture n y
  | None => None
  end.

End Regex.
Import Regex.

(** ** dockerExtension.ts *)

Module DockerExtension.

Local Open Scope regex_scope.

Definition ws : regex := Class [ASpace].

(** The literal [/^\s*FROM\s*([\w-\/:]* )(\s*AS\s*[a-z][a-z0-9-_\\.]* )?$/i]
    (the blank before each closing parenthesis is not in the source).  In a
    class, [\w-\/] is the class escape, a hyphen and a slash (a class
    escape cannot bound a range), and in [0-9-_\\.] the hyphen after the
    range [0-9] is a hyphen, followed by an underscore, a backslash and a
    dot. *)
Definition FROM_DIRECTIVE_PATTERN : RegExp :=
  {| source :=
       Bol +> Star ws +> lits (str "FROM") +> Star ws
       +> Group 1 (Star (Class [AWord; AChar 45; AChar 47; AChar 58]))
       +> Opt (Group 2 (Star ws +> lits (str "AS") +> Star ws
                        +> Class [ARange 97 122]
                        +> Star (Class [ARange 97 122; ARange 48 57; AChar 45;
                                        AChar 95; AChar 92; AChar 46])))
       +> Eol;
     ignoreCase := true |}.

Definition COMPOSE_FILE_GLOB_PATTERN : jsstring :=
  str "**/[dD]ocker-[cC]ompose*.{yaml,yml}".

Definition DOCKERFILE_GLOB_PATTERN : jsstring :=
  str "**/{*.dockerfile,[dD]ocker[fF]ile}".

(** [vscode.DocumentFilter]: every field is optional. *)
Record DocumentFilter := {
  language : option jsstring;
  scheme : option jsstring;
  pattern : option jsstring
}.

(** [DOCUMENT_SELECTOR], under which the Dockerfile completion provider and
    the language client are registered. *)
Definition DOCUMENT_SELECTOR : list DocumentFilter :=
  [ {| language := Some (str "dockerfile"); scheme := Some (str "file");
       pattern := None |} ].

(** [YAML_MODE_ID], under which the Compose hover and completion providers
    are registered. *)
Definition YAML_MODE_ID : DocumentFilter :=
  {| language := Some (str "yaml"); scheme := Some (str "file");
     pattern := Some COMPOSE_FILE_GLOB_PATTERN |}.

End DockerExtension.
Import DockerExtension.

(** ** Glob patterns *)

Module Glob.

Local Open Scope regex_scope.

(** The glob patterns are the editor's: it reads a pattern into a regular
    expression that has to match the whole path, letter case included.
    [*] stands for zero or more characters of a path segment, [?] for one
    character of a path segment, [{a,b}] for alternatives and [[...]] for
    a set of characters, negated by a leading [!].  For [**/] the editor
    of the time of the extension writes a repetition of three
    alternatives: a separator, segment text followed by a separator, and
    a separator followed by segment text.  The last alternative lets
    [**] end inside a path segment.  The editor writes its repetitions
    lazy; whether a path matches does not depend on that. *)

Definition separators : list atom := [AChar 47; AChar 92].
Definition in_segment : regex := Star (NotClass separators).
Definition globstar : regex :=
  Star (Alt (Class separators)
          (Alt (Plus (NotClass separators) +> Class separators)
               (Class separators +> Plus (NotClass separators)))).
Definition anything : regex := Star (NotClass []).

Fixpoint parse_set (s : jsstring) (acc : list atom)
    : option (list atom * jsstring) :=
  match s with
  | [] => None
  | c :: t =>
      if cu_eqb c 93 then Some (rev acc, t)
      else match t with
           | d :: e :: t' =>
               if cu_eqb d 45 && negb (cu_eqb e 93)
               then parse_set t' (ARange c e :: acc)
               else parse_set t (AChar c :: acc)
           | _ => parse_set t (AChar c :: acc)
           end
  end.

Definition followed_by (r : regex) (k : option (regex * jsstring))
    : option (regex * jsstring) :=
  match k with
  | Some (r', t) => Some (r +> r', t)
  | None => None
  end.

(** [parse_seq] reads a sequence, up to the end of the pattern or, inside
    braces, up to the next comma or closing brace; [parse_alts] reads the
    alternatives of a brace group. *)
Fixpoint parse_seq (fuel : nat) (braces : bool) (s : jsstring)
    : option (regex * jsstring) :=
  match fuel with
  | 0 => None
  | S f =>
      match s with
      | [] => if braces then None else Some (Empty, [])
      | c :: t =>
          if braces && (cu_eqb c 44 || cu_eqb c 125) then Some (Empty, s)
          else if cu_eqb c 42 then
            match t with
            | c2 :: t2 =>
                if cu_eqb c2 42 then
                  match t2 with
                  | c3 :: t3 =>
                      if cu_eqb c3 47
                      then followed_by globstar (parse_seq f braces t3)
                      else followed_by anything (parse_seq f braces t2)
                  | [] => followed_by anything (parse_seq f braces t2)
                  end
                else followed_by in_segment (parse_seq f braces t)
            | [] => followed_by in_segment (parse_seq f braces t)
            end
          else if cu_eqb c 63 then
            followed_by (NotClass separators) (parse_seq f braces t)
          else if cu_eqb c 91 then
            match t with
            | c2 :: t2 =>
                if cu_eqb c2 33 then
                  match parse_set t2 [] with
                  | Some (items, t') =>
                      followed_by (NotClass items) (parse_seq f braces t')
                  | None => None
                  end
                else
                  match parse_set t [] with
                  | Some (items, t') =>
                      followed_by (Class items) (parse_seq f braces t')
                  | None => None
                  end
            | [] => None
            end
          else if cu_eqb c 123 then
            match parse_alts f t with
            | Some (r, t') => followed_by r (parse_seq f braces t')
            | None => None
            end
          else followed_by (Lit c) (parse_seq f braces t)
      end
  end
with parse_alts (fuel : nat) (s : jsstring) : option (regex * jsstring) :=
  match fuel with
  | 0 => None
  | S f =>
      match parse_seq f true s with
      | Some (r, c :: t) =>
          if cu_eqb c 125 then Some (r, t)
          else match parse_alts f t with
               | Some (r', t') => Some (Alt r r', t')
               | None => None
               end
      | _ => None
      end
  end.

Definition parse (glob : jsstring) : option regex :=
  match parse_seq (2 * length glob + 2) false glob with
  | Some (r, _) => Some r
  | None => None
  end.

(** Whether [path] matches [glob]; [nocase] asks for case-insensitive
    matching. *)
Definition matches (nocase : bool) (glob path : jsstring) : bool :=
  match parse glob with
  | Some r => test {| source := Bol +> r +> Eol; ignoreCase := nocase |} path
  | None => false
  end.

Definition match_glob (glob path : jsstring) : bool := matches false glob path.

(** A document, as a selector sees it. *)
Record TextDocument := {
  languageId : jsstring;
  uriScheme : jsstring;
  fsPath : jsstring
}.

Definition agrees (wanted : option jsstring) (actual : jsstring) : bool :=
  match wanted with
  | Some w => jseqb w actual
  | None => true
  end.

(** A filter selects a document when each field it has agrees with the
    document. *)
Definition selects (f : DocumentFilter) (doc : TextDocument) : bool :=
  agrees (language f) (languageId doc)
  && agrees (scheme f) (uriScheme doc)
  && match pattern f with
     | Some glob => match_glob glob (fsPath doc)
     | None => true
     end.

End Glob.


(** ** commands/utils/quick-pick-image.ts *)

Module QuickPickImage.

(** [Docker.ImageDesc]: of the descriptor, [computeItems] reads [RepoTags]
    only, which the daemon leaves out of a dangling image. *)
Record ImageDesc := {
  Id : jsstring;
  RepoTags : option (list jsstring)
}.

(** [ImageItem]: a quick pick item; the item for all images carries no
    descriptor. *)
Record ImageItem := {
  label : jsstring;
  imageDesc : option ImageDesc
}.

(** [repoTag || '<none>']: the empty string is falsy. *)
Definition createItem (image : ImageDesc) (repoTag : jsstring) : ImageItem :=
  {| label := match repoTag with [] => str "<none>" | _ => repoTag end;
     imageDesc := Some image |}.

(** [for (let i = 0; i < n; i++) body], threading the array under
    construction. *)
Definition for_range {S : Type} (n : nat) (body : nat -> S -> S) (s : S) : S :=
  fold_left (fun acc i => body i acc) (seq 0 n) s.

Definition push {A : Type} (items : list A) (item : A) : list A := items ++ [item].

(** A truthy optional flag. *)
Definition truthy (b : option bool) : bool :=
  match b with Some true => true | _ => false end.

Definition allImages : ImageItem :=
  {| label := str "All Images"; imageDesc := None |}.

(** The two nested loops of [computeItems]. *)
Definition pushImages (images : list ImageDesc) (items : list ImageItem)
    : list ImageItem :=
  for_range (length images) (fun i items =>
    match images !! i with
    | None => items
    | Some image =>
        match RepoTags image with
        | None => push items (createItem image (str "<none>:<none>"))
        | Some tags =>
            for_range (length tags) (fun j items =>
              match tags !! j with
              | None => items
              | Some tag => push items (createItem image tag)
              end) items
        end
    end) items.

Definition computeItems (images : list ImageDesc) (includeAll : option bool)
    : list ImageItem :=
  let items := pushImages images [] in
  if truthy includeAll && (0 <? length images)
  then allImages :: items
  else items.

(** The items of one image. *)
Definition itemsOf (image : ImageDesc) : list ImageItem :=
  match RepoTags image with
  | None => [createItem image (str "<none>:<none>")]
  | Some tags => map (createItem image) tags
  end.

Definition tagCount (image : ImageDesc) : nat :=
  match RepoTags image with
  | None => 1
  | Some tags => length tags
  end.

(** Whether the item for all images is added. *)
Definition withAll (images : list ImageDesc) (includeAll : option bool) : bool :=
  match includeAll, images with
  | Some true, _ :: _ => true
  | _, _ => false
  end.

End QuickPickImage.

(** ** Text into lines *)

Module Lines.

(** [text.split('\n')]. *)
Fixpoint split_lines (text : jsstring) (cur : jsstring) : list jsstring :=
  match text with
  | [] => [rev cur]
  | c :: t =>
      if cu_eqb c 10 then rev cur :: split_lines t []
      else split_lines t (c :: cur)
  end.

Definition lines (text : jsstring) : list jsstring := split_lines text [].

(** The number of characters of [s] in front of the first one that fails
    [p]. *)
Fixpoint run_length (p : cu -> bool) (s : jsstring) : nat :=
  match s with
  | c :: t => if p c then S (run_length p t) else 0
  | [] => 0
  end.

Definition is_blank (s : jsstring) : bool := forallb is_space s.

End Lines.
Import Lines.

(** ** The Dockerfile parser *)

Module Dockerfile.

(** Modelled from the spec: [DirectiveRecord] of section 3. *)
Record DirectiveRecord := {
  instruction : jsstring;
  argumentText : jsstring;
  stageAlias : option jsstring;
  lineNumber : nat;
  columnSpan : nat * nat
}.

(** Modelled from the spec: the Dockerfile parser ([parse] of section 4.1)
    is not among the sources at hand; only the pattern it applies to FROM
    lines, [FROM_DIRECTIVE_PATTERN], is.  The specification gives FROM, RUN
    and COPY as examples of instruction keywords; the list below is the
    instruction set of the Dockerfile format. *)
Definition instructions : list jsstring :=
  map str ["ADD"; "ARG"; "CMD"; "COPY"; "ENTRYPOINT"; "ENV"; "EXPOSE"; "FROM";
           "HEALTHCHECK"; "LABEL"; "MAINTAINER"; "ONBUILD"; "RUN"; "SHELL";
           "STOPSIGNAL"; "USER"; "VOLUME"; "WORKDIR"]%string.

Definition ends_with_backslash (l : jsstring) : bool :=
  match rev l with
  | c :: _ => cu_eqb c 92
  | [] => false
  end.

(** Modelled from the spec: logical lines.  A physical line that ends in a
    backslash is joined with the next one; a logical line keeps the number
    of its first physical line. *)
Fixpoint logical_lines (physical : list jsstring) (n : nat)
    (open : option (nat * jsstring)) : list (nat * jsstring) :=
  match physical with
  | [] => match open with Some l => [l] | None => [] end
  | l :: rest =>
      let start := match open with Some (s, _) => s | None => n end in
      let text := match open with Some (_, a) => a ++ l | None => l end in
      if ends_with_backslash l
      then logical_lines rest (S n) (Some (start, removelast text))
      else (start, text) :: logical_lines rest (S n) None
  end.

(** The alias of the second group of [FROM_DIRECTIVE_PATTERN], which holds
    the whitespace and the keyword AS in front of it. *)
Definition alias_of_group (g : jsstring) : jsstring :=
  let g1 := drop (run_length is_space g) g in
  let g2 := drop 2 g1 in
  drop (run_length is_space g2) g2.

(** Modelled from the spec: the record of one logical line, [None] for a
    blank line or a comment.  The keyword is the longest run of letters
    that follows the indentation, the argument text is what follows the
    keyword, and a FROM line is matched against [FROM_DIRECTIVE_PATTERN]
    for its stage alias. *)
Definition directive (n : nat) (line : jsstring) : option DirectiveRecord :=
  let indent := run_length is_space line in
  let body := drop indent line in
  match body with
  | [] => None
  | c :: _ =>
      if cu_eqb c 35 then None
      else
        let len := run_length is_alpha body in
        let keyword := map to_upper (take len body) in
        let known := existsb (jseqb keyword) instructions in
        let alias :=
          if jseqb keyword (str "FROM")
          then match group_of (exec FROM_DIRECTIVE_PATTERN line) 2 with
               | Some g => Some (alias_of_group g)
               | None => None
               end
          else None in
        Some {| instruction := if known then keyword else str "UNKNOWN";
                argumentText := drop len body;
                stageAlias := alias;
                lineNumber := n;
                columnSpan := (indent, length line) |}
  end.

(** Modelled from the spec: [parse(text)], one record per logical line that
    is neither blank nor a comment. *)
Definition parse (text : jsstring) : list DirectiveRecord :=
  omap (fun l => directive (fst l) (snd l)) (logical_lines (lines text) 0 None).

End Dockerfile.

(** ** The Compose document engine *)

Module Compose.

Local Open Scope Z_scope.
Local Open Scope nat_scope.

(** The value kinds of section 3. *)
Inductive ValueKind := mapping | scalar | sequence.

(** Modelled from the spec: [KeyNode] of section 3; the parser that builds
    it is not among the sources at hand.  As section 9 proposes, the nodes
    live in an arena and refer to each other by index; node 0 is the
    synthetic root, whose indentation is below every line. *)
Record KeyNode := {
  keyPath : list jsstring;
  key : jsstring;
  kind : ValueKind;
  indentLevel : Z;
  lineNumber : nat;
  columnSpan : nat * nat;
  children : list nat;
  parent : option nat
}.

Definition root : KeyNode :=
  {| keyPath := []; key := []; kind := mapping; indentLevel := (-1)%Z;
     lineNumber := 0; columnSpan := (0, 0); children := []; parent := None |}.

(** Modelled from the spec: one entry of the flat offset index of a
    [ParseResult] (section 3). *)
Record IndexEntry := {
  entryLine : nat;
  entrySpan : nat * nat;
  entryNode : nat
}.

(** Modelled from the spec: [ParseResult] of section 3, the tree and its
    flat offset index. *)
Record ParseResult := {
  nodes : list KeyNode;
  index : list IndexEntry
}.

(** *** Lines *)

(** What a line that classifies says: its indentation, its key, the kind
    of its value and its column span. *)
Record LineInfo := {
  l_indent : nat;
  l_key : jsstring;
  l_kind : ValueKind;
  l_span : nat * nat
}.

Definition is_blank_char (c : cu) : bool := cu_eqb c 32.

(** Modelled from the spec: the key of [key:] and [key: value], the text in
    front of the first colon that ends the line or is followed by a blank;
    the second component is what follows the colon. *)
Fixpoint split_key (body : jsstring) (acc : jsstring)
    : option (jsstring * jsstring) :=
  match body with
  | [] => None
  | c :: t =>
      if cu_eqb c 58 && match t with [] => true | d :: _ => cu_eqb d 32 end
      then Some (rev acc, t)
      else split_key t (c :: acc)
  end.

(** Modelled from the spec: the classification of a line of section 4.2.
    The indentation is the number of leading blanks.  A blank line, a
    comment, a line whose indentation runs into a tab and a line that is
    neither a mapping key nor a sequence item give [None]: they are
    skipped. *)
Definition classify (line : jsstring) : option LineInfo :=
  let indent := run_length is_blank_char line in
  let body := drop indent line in
  match body with
  | [] => None
  | c :: t =>
      if cu_eqb c 35 then None
      else if cu_eqb c 9 then None
      else if cu_eqb c 45 && match t with [] => true | d :: _ => cu_eqb d 32 end
      then
        let item := drop (run_length is_blank_char t) t in
        Some {| l_indent := indent;
                l_key := match split_key item [] with
                         | Some (k :: ks, _) => k :: ks
                         | _ => item
                         end;
                l_kind := sequence;
                l_span := (indent, length line) |}
      else
        match split_key body [] with
        | Some (k :: ks, value) =>
            Some {| l_indent := indent;
                    l_key := k :: ks;
                    l_kind := if is_blank value then mapping else scalar;
                    l_span := (indent, length line) |}
        | _ => None
        end
  end.

(** *** The stack of open nodes *)

(** Modelled from the spec: the working state of the parser of section
    4.2: the nodes made so far, the stack of open nodes with their
    indentation, and the index. *)
Record PState := {
  arena : list KeyNode;
  stack : list (Z * nat);
  entries : list IndexEntry
}.

Definition init : PState :=
  {| arena := [root]; stack := [((-1)%Z, 0)]; entries := [] |}.

(** Pop the entries whose indentation is not less than [indent]. *)
Fixpoint pop (indent : Z) (st : list (Z * nat)) : list (Z * nat) :=
  match st with
  | (i, n) :: rest => if (indent <=? i)%Z then pop indent rest else st
  | [] => []
  end.

Definition top (st : list (Z * nat)) : nat :=
  match st with
  | (_, n) :: _ => n
  | [] => 0
  end.

Definition add_child (c : nat) (n : KeyNode) : KeyNode :=
  {| keyPath := keyPath n; key := key n; kind := kind n;
     indentLevel := indentLevel n; lineNumber := lineNumber n;
     columnSpan := columnSpan n; children := children n ++ [c];
     parent := parent n |}.

Definition path_of (a : list KeyNode) (i : nat) : list jsstring :=
  match a !! i with
  | Some n => keyPath n
  | None => []
  end.

(** Modelled from the spec: one line of section 4.2.  A line that
    classifies pops the stack down to the first entry of smaller
    indentation, becomes the last child of that entry and is pushed. *)
Definition step (st : PState) (n : nat) (line : jsstring) : PState :=
  match classify line with
  | None => st
  | Some li =>
      let indent := Z.of_nat (l_indent li) in
      let open := pop indent (stack st) in
      let p := top open in
      let id := length (arena st) in
      let node :=
        {| keyPath := path_of (arena st) p ++ [l_key li];
           key := l_key li; kind := l_kind li; indentLevel := indent;
           lineNumber := n; columnSpan := l_span li; children := [];
           parent := Some p |} in
      {| arena := alter (add_child id) p (arena st) ++ [node];
         stack := (indent, id) :: open;
         entries := entries st
                    ++ [{| entryLine := n; entrySpan := l_span li;
                           entryNode := id |}] |}
  end.

Fixpoint run (st : PState) (n : nat) (ls : list jsstring) : PState :=
  match ls with
  | [] => st
  | l :: ls' => run (step st n l) (S n) ls'
  end.

(** Modelled from the spec: [parseCompose(text)]; the state is created
    afresh for each call. *)
Definition parseCompose (text : jsstring) : ParseResult :=
  let st := run init 0 (lines text) in
  {| nodes := arena st; index := entries st |}.

(** *** The position resolver *)

(** Whether the entry starts at or before the position. *)
Definition starts_before (e : IndexEntry) (line col : nat) : bool :=
  (entryLine e <? line) || ((entryLine e =? line) && (fst (entrySpan e) <=? col)).

(** Modelled from the spec: the binary search of section 4.4 over the
    index, ordered by line and first column.  It returns the rank, from
    [lo] up to [hi], of the first entry that starts after the position. *)
Fixpoint upper_bound (fuel : nat) (idx : list IndexEntry) (lo hi line col : nat)
    : nat :=
  match fuel with
  | 0 => lo
  | S f =>
      if lo <? hi then
        let mid := (lo + hi) / 2 in
        match idx !! mid with
        | Some e =>
            if starts_before e line col
            then upper_bound f idx (S mid) hi line col
            else upper_bound f idx lo mid line col
        | None => lo
        end
      else lo
  end.

(** Modelled from the spec: [resolve(ParseResult, line, column)] of section
    4.4, the node of the last entry that starts at or before the position,
    the root when there is none. *)
Definition resolve (pr : ParseResult) (line col : nat) : nat :=
  match upper_bound (length (index pr)) (index pr) 0 (length (index pr)) line col with
  | 0 => 0
  | S k => match index pr !! k with
           | Some e => entryNode e
           | None => 0
           end
  end.

(** The span of a node holds a position. *)
Definition span_contains (n : KeyNode) (line col : nat) : Prop :=
  lineNumber n = line /\ fst (columnSpan n) <= col <= snd (columnSpan n).

(** The position is on the key of the node. *)
Definition on_key (n : KeyNode) (line col : nat) : bool :=
  (lineNumber n =? line) && (fst (columnSpan n) <=? col)
  && (col <? fst (columnSpan n) + length (key n)).

(** *** The schema registry *)

Inductive Segment := Name (s : jsstring) | AnyName.

(** [SchemaEntry].  The source types a table of entries, [KeyInfo], as an
    object from key names to descriptions, and the registry,
    [ComposeVersionKeys], as the three tables [All], [v1] and [v2]; the
    tables themselves are not among the sources at hand.  A property of
    a table is an entry, its name read as the key-path pattern of the
    specification; the variants an entry applies to are the tables it is
    in. *)
Record SchemaEntry := {
  keyPattern : list Segment;
  description : jsstring
}.

Definition KeyInfo := list SchemaEntry.

Record ComposeVersionKeys := {
  All : KeyInfo;
  v1 : KeyInfo;
  v2 : KeyInfo
}.

Inductive Variant := VAll | V1 | V2.

Definition table (reg : ComposeVersionKeys) (v : Variant) : KeyInfo :=
  match v with
  | VAll => All reg
  | V1 => v1 reg
  | V2 => v2 reg
  end.

Definition segment_matches (seg : Segment) (name : jsstring) : bool :=
  match seg with
  | Name s => jseqb s name
  | AnyName => true
  end.





(** The label an entry offers under the key path [path]: the last segment
    of a pattern whose other segments match [path]. *)
Fixpoint child_label (pat : list Segment) (path : list jsstring)
    : option jsstring :=
  match pat, path with
  | [Name l], [] => Some l
  | seg :: pat', name :: path' =>
      if segment_matches seg name then child_label pat' path' else None
  | _, _ => None
  end.

Definition candidates_in (keys : KeyInfo) (path : list jsstring)
    : list (jsstring * SchemaEntry) :=
  omap (fun e => match child_label (keyPattern e) path with
                 | Some l => Some (l, e)
                 | None => None
                 end) keys.

Definition mentions (labels : list jsstring) (l : jsstring) : bool :=
  existsb (jseqb l) labels.

(** Modelled from the spec: [candidatesAt(keyPath, variant)] of section
    4.3, in the order of declaration: the entries of the table of the
    variant, then those of [All] that bring a new label.  For the variant
    [all] the table [All] alone is read. *)
Definition candidatesAt (reg : ComposeVersionKeys) (path : list jsstring)
    (v : Variant) : list (jsstring * SchemaEntry) :=
  match v with
  | VAll => candidates_in (All reg) path
  | _ =>
      let own := candidates_in (table reg v) path in
      own ++ List.filter (fun c => negb (mentions (map fst own) (fst c)))
               (candidates_in (All reg) path)
  end.

(** *** Completion *)

Inductive InsertionKind := PropertyKind | KeywordKind.

(** Modelled from the spec: [CompletionItem] of section 4.5. *)
Record CompletionItem := {
  label : jsstring;
  documentation : jsstring;
  insertionKind : InsertionKind
}.

(** Modelled from the spec: from node [i] up to the first node indented
    less than the column, as the parser pops the stack for a key at that
    column. *)
Fixpoint climb (fuel : nat) (ns : list KeyNode) (i : nat) (col : Z) : nat :=
  match fuel with
  | 0 => 0
  | S f =>
      match ns !! i with
      | Some n =>
          if (indentLevel n <? col)%Z then i
          else match parent n with
               | Some p => climb f ns p col
               | None => i
               end
      | None => 0
      end
  end.

(** Modelled from the spec: the node that encloses the cursor, for
    completion.  On the key of the resolved node it is the parent of that
    node (section 4.4: the nearest enclosing parent when the position
    falls on the key token); elsewhere it is the node a key typed at the
    cursor would become a child of. *)
Definition enclosing (pr : ParseResult) (line col : nat) : nat :=
  let i := resolve pr line col in
  match nodes pr !! i with
  | Some n =>
      if on_key n line col
      then match parent n with Some p => p | None => i end
      else climb (length (nodes pr)) (nodes pr) i (Z.of_nat col)
  | None => 0
  end.

Definition key_of (ns : list KeyNode) (i : nat) : jsstring :=
  match ns !! i with
  | Some n => key n
  | None => []
  end.

(** Modelled from the spec: the key labels already present under node
    [i]. *)
Definition siblingLabels (pr : ParseResult) (i : nat) : list jsstring :=
  match nodes pr !! i with
  | Some n => map (key_of (nodes pr)) (children n)
  | None => []
  end.

Definition item_of (c : jsstring * SchemaEntry) : CompletionItem :=
  {| label := fst c; documentation := description (snd c);
     insertionKind := PropertyKind |}.

(** Modelled from the spec: [complete(text, line, column,
    declaredVariant)] of section 4.5 for a Compose document.  Without a
    declared variant the variant [all] is used. *)
Definition complete (reg : ComposeVersionKeys) (text : jsstring)
    (line col : nat) (declared : option Variant) : list CompletionItem :=
  let pr := parseCompose text in
  let e := enclosing pr line col in
  let used := siblingLabels pr e in
  let v := match declared with Some v => v | None => VAll end in
  map item_of
    (List.filter (fun c => negb (mentions used (fst c)))
       (candidatesAt reg (path_of (nodes pr) e) v)).

(** *** Hover *)



(** A small registry, for examples. *)
Definition service_key (k : string) (d : string) : SchemaEntry :=
  {| keyPattern := [Name (str "services"); AnyName; Name (str k)];
     description := str d |}.

Definition sample_registry : ComposeVersionKeys :=
  {| All := [ {| keyPattern := [Name (str "version")]; description := str "version" |};
              {| keyPattern := [Name (str "services")]; description := str "services" |};
              service_key "image" "the image";
              service_key "build" "build options";
              service_key "ports" "exposed ports";
              {| keyPattern := [Name (str "build"); Name (str "context")];
                 description := str "context, all versions" |} ];
     v1 := [ {| keyPattern := [AnyName; Name (str "image")]; description := str "the image" |} ];
     v2 := [ {| keyPattern := [Name (str "services")]; description := str "services" |};
             service_key "image" "the image";
             service_key "build" "build options";
             {| keyPattern := [Name (str "build"); Name (str "context")];
                description := str "context, version 2" |} ] |}.

Definition example_text : jsstring := str "services:
  web:
    image: x
".

(** *** Well-formed results *)

(** The position of a node is at or before a position. *)
Definition node_starts_before (n : KeyNode) (line col : nat) : Prop :=
  lineNumber n < line \/ (lineNumber n = line /\ fst (columnSpan n) <= col).

Record WellFormed (pr : ParseResult) : Prop := {
  wf_root :
    exists r, nodes pr !! 0 = Some r /\ parent r = None /\ keyPath r = []
              /\ indentLevel r = (-1)%Z;
  wf_parent :
    forall i n, nodes pr !! i = Some n -> i <> 0 ->
      exists p np, parent n = Some p /\ p < i /\ nodes pr !! p = Some np
                   /\ (indentLevel np < indentLevel n)%Z
                   /\ keyPath n = keyPath np ++ [key n]
                   /\ In i (children np);
  wf_children :
    forall p np c, nodes pr !! p = Some np -> In c (children np) ->
      exists nc, nodes pr !! c = Some nc /\ parent nc = Some p;
  wf_index_length : length (nodes pr) = S (length (index pr));
  wf_index :
    forall j e, index pr !! j = Some e ->
      entryNode e = S j
      /\ exists n, nodes pr !! S j = Some n /\ lineNumber n = entryLine e
                   /\ columnSpan n = entrySpan e;
  wf_sorted :
    forall j1 j2 e1 e2, j1 < j2 ->
      index pr !! j1 = Some e1 -> index pr !! j2 = Some e2 ->
      entryLine e1 < entryLine e2;
  wf_root_key : forall r, nodes pr !! 0 = Some r -> key r = [];
  wf_nearest :
    forall i n p, nodes pr !! i = Some n -> parent n = Some p ->
      forall j m, p < j < i -> nodes pr !! j = Some m ->
        (indentLevel n <= indentLevel m)%Z;
  wf_child_order :
    forall p np k1 k2 c1 c2, nodes pr !! p = Some np ->
      children np !! k1 = Some c1 -> children np !! k2 = Some c2 ->
      k1 < k2 -> c1 < c2
}.




(** A text whose third line comes back to an indentation that no open
    node has. *)
Definition uneven_text : jsstring := str "a:
    b: 1
  c: 2
".

(** The node was made from a line of the text that classifies. *)
Definition made_from_line (ls : list jsstring) (n : KeyNode) : Prop :=
  exists l li, ls !! lineNumber n = Some l /\ classify l = Some li
    /\ key n = l_key li /\ kind n = l_kind li
    /\ indentLevel n = Z.of_nat (l_indent li) /\ columnSpan n = l_span li.



(** The text of the completion example once the indentation of a new key
    is typed under [image], and the same with a second key under [web]. *)
Definition typed_text : jsstring := str "services:
  web:
    image: x
    ".

Definition two_keys_text : jsstring := str "services:
  web:
    image: x
    ports: y
    ".

End Compose.
Import Compose.

(** ** quickPickImage *)

Module QuickPickImageCommand.
Import QuickPickImage.

(** The filter passed to the daemon: [{ filters: { dangling: ["false"] } }]. *)
Record ImageFilters := { dangling : list jsstring }.

Definition imageFilters : ImageFilters := {| dangling := [str "false"] |}.

Record QuickPickOptions := { placeHolder : jsstring }.

(** What [quickPickImage] throws: an [Error] of its own, or whatever the
    quick pick throws (a cancellation, by its documentation). *)
Inductive Thrown (T : Type) :=
| JsError (message : jsstring)
| FromPick (t : T).
Arguments JsError {T} message.
Arguments FromPick {T} t.

Definition cannotConnect (message : jsstring) : jsstring :=
  str "Unable to connect to Docker, is the Docker daemon running?"
  ++ 10%N :: message.

Definition noImages : jsstring :=
  str "There are no docker images. Try Docker Build first.".

Section QuickPickImage.

(** The collaborators: the daemon ([docker.getImageDescriptors], which
    throws or returns the descriptors, possibly [null]),
    [parseError(error).message], and [ext.ui.showQuickPick], which throws
    or returns an item.  An awaited call is a sum: [inl] what it throws,
    [inr] what it returns. *)
Variables E T : Type.
Variable getImageDescriptors : ImageFilters -> E + option (list ImageDesc).
Variable parseErrorMessage : E -> jsstring.
Variable showQuickPick : list ImageItem -> QuickPickOptions -> T + ImageItem.

Definition quickPickImage (includeAll : option bool) : Thrown T + ImageItem :=
  match getImageDescriptors imageFilters with
  | inl error => inl (JsError (cannotConnect (parseErrorMessage error)))
  | inr images =>
      match images with
      | None | Some [] => inl (JsError noImages)
      | Some images =>
          let items := computeItems images includeAll in
          match showQuickPick items {| placeHolder := str "Choose image..." |} with
          | inl t => inl (FromPick t)
          | inr item => inr item
          end
      end
  end.

End QuickPickImage.

End QuickPickImageCommand.

(** ** Configuration.computeConfiguration *)

Module Configuration.

(** [ConfigurationItem] of the language-server protocol: both fields are
    optional. *)
Record ConfigurationItem := {
  scopeUri : option jsstring;
  section : option jsstring
}.

Record ConfigurationParams := { items : list ConfigurationItem }.

Section ComputeConfiguration.

(** The collaborators: [vscode.workspace.getConfiguration(section, uri)],
    whose second argument may be left out, and the converter of the
    language client, [client.protocol2CodeConverter.asUri]. *)
Variables Uri WorkspaceConfiguration : Type.
Variable getConfiguration : option jsstring -> option Uri -> WorkspaceConfiguration.

Record LanguageClient := { asUri : jsstring -> Uri }.

(** [computeConfiguration(params)]: [if (item.scopeUri)] holds for a
    string that is not empty.  The module variable [client] is
    [undefined] until the language client is created; reading a property
    of [undefined] throws, which is [None] here. *)
Definition computeConfiguration (client : option LanguageClient)
    (params : ConfigurationParams) : option (list WorkspaceConfiguration) :=
  fold_left
    (fun acc item =>
       match acc with
       | None => None
       | Some result =>
           match scopeUri item with
           | Some (u :: us) =>
               match client with
               | Some c =>
                   Some (result
                         ++ [getConfiguration (section item)
                               (Some (asUri c (u :: us)))])
               | None => None
               end
           | _ => Some (result ++ [getConfiguration (section item) None])
           end
       end)
    (items params) (Some []).

End ComputeConfiguration.

End Configuration.

(** * Part II: what the programs are checked against *)

(** ** What a pattern recognizes *)

Module RegexLanguage.

(** [Matches i r p s t]: at index [p], in front of the input [s ++ t], the
    pattern [r] can consume exactly [s]. *)
Inductive Matches (i : bool) : regex -> nat -> jsstring -> jsstring -> Prop :=
| MEmpty p t : Matches i Empty p [] t
| MLit a c p t : char_eq i a c = true -> Matches i (Lit a) p [c] t
| MClass items c p t :
    class_matches i items c = true -> Matches i (Class items) p [c] t
| MNotClass items c p t :
    class_matches i items c = false -> Matches i (NotClass items) p [c] t
| MSeq r1 r2 p s1 s2 t :
    Matches i r1 p s1 (s2 ++ t) -> Matches i r2 (p + length s1) s2 t ->
    Matches i (Seq r1 r2) p (s1 ++ s2) t
| MAltL r1 r2 p s t : Matches i r1 p s t -> Matches i (Alt r1 r2) p s t
| MAltR r1 r2 p s t : Matches i r2 p s t -> Matches i (Alt r1 r2) p s t
| MStar0 r p t : Matches i (Star r) p [] t
| MStarS r p s1 s2 t :
    s1 <> [] -> Matches i r p s1 (s2 ++ t) ->
    Matches i (Star r) (p + length s1) s2 t ->
    Matches i (Star r) p (s1 ++ s2) t
| MGroup n r p s t : Matches i r p s t -> Matches i (Group n r) p s t
| MBol t : Matches i Bol 0 [] t
| MEol p : Matches i Eol p [] [].

(** A continuation that looks at the position only. *)
Definition reads (k : Continuation) (K : nat -> jsstring -> Prop) : Prop :=
  forall y, is_Some (k y) <-> K (endIndex y) (rest y).

Definition accepts (i : bool) (r : regex) (K : nat -> jsstring -> Prop)
    (p : nat) (u : jsstring) : Prop :=
  exists s t, u = s ++ t /\ Matches i r p s t /\ K (p + length s) t.

Definition sound_for (i : bool) (r : regex)
    (body : MatchState -> Continuation -> option MatchState) : Prop :=
  forall k K, reads k K ->
    forall x, is_Some (body x k) <-> accepts i r K (endIndex x) (rest x).

(** A keyword, letter by letter. *)
Definition spells (i : bool) (w s : jsstring) : Prop :=
  Forall2 (fun a c => char_eq i a c = true) w s.

End RegexLanguage.
Import RegexLanguage.

(** ** The FROM line *)

Module FromLine.
Local Open Scope regex_scope.

(** The pattern as the specification writes it:
    [^\s*FROM\s+([\w\-/:.]+)(\s+AS\s+[a-zA-Z][\w.\-]* )?\s*$], case-insensitive
    (the blank before the closing parenthesis is not in the pattern). *)
Definition SPEC_FROM_PATTERN : RegExp :=
  {| source :=
       Bol +> Star ws +> lits (str "FROM") +> Plus ws
       +> Group 1 (Plus (Class [AWord; AChar 45; AChar 47; AChar 58; AChar 46]))
       +> Opt (Group 2 (Plus ws +> lits (str "AS") +> Plus ws
                        +> Class [ARange 97 122; ARange 65 90]
                        +> Star (Class [AWord; AChar 46; AChar 45])))
       +> Star ws +> Eol;
     ignoreCase := true |}.

(** The shape of the lines [FROM_DIRECTIVE_PATTERN] describes. *)
Definition blank (s : jsstring) : Prop := Forall (fun c => is_space c = true) s.

Definition image_char (c : cu) : bool :=
  is_word c || cu_eqb c 45 || cu_eqb c 47 || cu_eqb c 58.

Definition alias_char (c : cu) : bool :=
  is_alpha c || is_digit c || cu_eqb c 45 || cu_eqb c 95 || cu_eqb c 92
  || cu_eqb c 46.

Definition alias_clause (tail : jsstring) : Prop :=
  exists ws3 kw ws4 a alias,
    tail = ws3 ++ kw ++ ws4 ++ a :: alias
    /\ blank ws3 /\ spells true (str "AS") kw /\ blank ws4
    /\ is_alpha a = true /\ Forall (fun c => alias_char c = true) alias.

Definition from_line (line : jsstring) : Prop :=
  exists ws1 kw ws2 image tail,
    line = ws1 ++ kw ++ ws2 ++ image ++ tail
    /\ blank ws1 /\ spells true (str "FROM") kw /\ blank ws2
    /\ Forall (fun c => image_char c = true) image
    /\ (tail = [] \/ alias_clause tail).

(** The alias group of the pattern. *)
Definition alias_group : regex :=
  Star ws +> lits (str "AS") +> Star ws +> Class [ARange 97 122]
  +> Star (Class [ARange 97 122; ARange 48 57; AChar 45; AChar 95; AChar 92;
                  AChar 46]).

End FromLine.
Import FromLine.

(** ** The globs of the specification *)

Module SpecGlobs.

(** The Dockerfile glob as the specification writes it. *)
Definition SPEC_DOCKERFILE_GLOB : jsstring := str "**/{*.dockerfile,[dD]ockerfile}".

(** Paths, read without a glob. *)
Definition is_separator (c : cu) : bool := cu_eqb c 47 || cu_eqb c 92.

(** A run of characters of one path segment. *)
Definition in_one_segment (s : jsstring) : Prop :=
  Forall (fun c => is_separator c = false) s.

(** The directories in front of a file name: nothing, or a text that ends
    in a separator. *)
Definition directories (s : jsstring) : Prop :=
  s = [] \/ exists s' c, s = s' ++ [c] /\ is_separator c = true.

(** What [**/] stands for: a run of pieces, each a separator, alone or
    with the segment text in front of it or behind it. *)
Inductive globstar_prefix : jsstring -> Prop :=
| gp_nil : globstar_prefix []
| gp_sep c s :
    is_separator c = true -> globstar_prefix s -> globstar_prefix (c :: s)
| gp_before a c s :
    a <> [] -> in_one_segment a -> is_separator c = true ->
    globstar_prefix s -> globstar_prefix (a ++ c :: s)
| gp_after c a s :
    is_separator c = true -> a <> [] -> in_one_segment a ->
    globstar_prefix s -> globstar_prefix (c :: a ++ s).

(** A Compose file name: [docker-compose], with d and c in either case,
    whatever follows in the segment, and the extension [.yaml] or
    [.yml]. *)
Definition compose_file_name (name : jsstring) : Prop :=
  exists d c stem ext,
    name = d :: str "ocker-" ++ c :: str "ompose" ++ stem ++ str "." ++ ext
    /\ (d = 100 \/ d = 68)%N /\ (c = 99 \/ c = 67)%N
    /\ in_one_segment stem
    /\ (ext = str "yaml" \/ ext = str "yml").

Definition compose_file_path (path : jsstring) : Prop :=
  exists pre name,
    path = pre ++ name /\ globstar_prefix pre /\ compose_file_name name.

(** A Dockerfile name: [dockerfile], with d and f in either case, or a
    name of one segment that ends in [.dockerfile]. *)
Definition dockerfile_name (name : jsstring) : Prop :=
  (exists d f, name = d :: str "ocker" ++ f :: str "ile"
               /\ (d = 100 \/ d = 68)%N /\ (f = 102 \/ f = 70)%N)
  \/ (exists stem, name = stem ++ str ".dockerfile" /\ in_one_segment stem).

Definition dockerfile_path (path : jsstring) : Prop :=
  exists pre name,
    path = pre ++ name /\ globstar_prefix pre /\ dockerfile_name name.

(** A run of literal characters in front of a pattern, as the glob reader
    builds it. *)
Fixpoint lit_chain (w : jsstring) (r : regex) : regex :=
  match w with
  | [] => r
  | c :: t => Seq (Lit c) (lit_chain t r)
  end.

End SpecGlobs.
Import SpecGlobs.

(** ** The invariant of the Compose parser *)

Module ComposeInvariant.

Local Open Scope Z_scope.
Local Open Scope nat_scope.

(** What the parser maintains, line after line; [done] are the lines
    already read. *)
Record Inv (done : list jsstring) (st : PState) : Prop := {
  inv_root :
    exists r, arena st !! 0 = Some r /\ parent r = None /\ keyPath r = []
              /\ indentLevel r = (-1)%Z;
  inv_parent :
    forall i n, arena st !! i = Some n -> i <> 0 ->
      exists p np, parent n = Some p /\ p < i /\ arena st !! p = Some np
                   /\ (indentLevel np < indentLevel n)%Z
                   /\ keyPath n = keyPath np ++ [key n]
                   /\ In i (children np);
  inv_children :
    forall p np c, arena st !! p = Some np -> In c (children np) ->
      exists nc, arena st !! c = Some nc /\ parent nc = Some p;
  inv_stack :
    forall ind id, In (ind, id) (stack st) ->
      exists n, arena st !! id = Some n /\ indentLevel n = ind;
  inv_bottom : In ((-1)%Z, 0) (stack st);
  inv_length : length (arena st) = S (length (entries st));
  inv_index :
    forall j e, entries st !! j = Some e ->
      entryNode e = S j /\ entryLine e < length done
      /\ exists n, arena st !! S j = Some n /\ lineNumber n = entryLine e
                   /\ columnSpan n = entrySpan e;
  inv_sorted :
    forall j1 j2 e1 e2, j1 < j2 ->
      entries st !! j1 = Some e1 -> entries st !! j2 = Some e2 ->
      entryLine e1 < entryLine e2;
  inv_lines :
    forall i n, arena st !! i = Some n -> i <> 0 -> made_from_line done n;
  inv_count : length (arena st) = S (length (omap classify done));
  inv_root_key : forall r, arena st !! 0 = Some r -> key r = [];
  inv_open :
    forall j m t, arena st !! j = Some m -> top (pop t (stack st)) < j ->
      (t <= indentLevel m)%Z;
  inv_nearest :
    forall i n p, arena st !! i = Some n -> parent n = Some p ->
      forall j m, p < j < i -> arena st !! j = Some m ->
        (indentLevel n <= indentLevel m)%Z;
  inv_child_order :
    forall p np k1 k2 c1 c2, arena st !! p = Some np ->
      children np !! k1 = Some c1 -> children np !! k2 = Some c2 ->
      k1 < k2 -> c1 < c2;
  inv_indents :
    map indentLevel (arena st)
    = (-1)%Z :: map Z.of_nat (map l_indent (omap classify done));
  inv_top : exists ind rest, stack st = (ind, length (arena st) - 1) :: rest;
  inv_chain :
    forall k ind id, stack st !! k = Some (ind, id) ->
      exists n, arena st !! id = Some n /\ indentLevel n = ind
                /\ parent n = snd <$> stack st !! S k
}.

(** Two nodes that differ in their children at most. *)
Definition same_key_node (n m : KeyNode) : Prop :=
  keyPath m = keyPath n /\ key m = key n /\ indentLevel m = indentLevel n
  /\ lineNumber m = lineNumber n /\ columnSpan m = columnSpan n
  /\ parent m = parent n.

(** The state of the parser when it arrives at a line, and the node under
    which it puts a key that starts at a column. *)
Definition state_at (text : jsstring) (line : nat) : PState :=
  run init 0 (take line (lines text)).

Definition attach_point (st : PState) (col : nat) : nat :=
  top (pop (Z.of_nat col) (stack st)).

End ComposeInvariant.
Import ComposeInvariant.

(** ** The cursor on a key, and the entry that describes a key *)

Module HoverRule.

(** The cursor is on the key of the node. *)
Definition cursor_on_key (n : KeyNode) (line col : nat) : Prop :=
  lineNumber n = line
  /\ fst (columnSpan n) <= col < fst (columnSpan n) + length (key n).


End HoverRule.
Import HoverRule.

(** ** The image quick pick, read without the loops *)

Module QuickPickShapes.
Import QuickPickImage QuickPickImageCommand.

(** The repo tags of an image, none when [RepoTags] is absent. *)
Definition tagsOf (image : ImageDesc) : list jsstring :=
  match RepoTags image with
  | Some tags => tags
  | None => []
  end.

(** Every image has its [RepoTags], and no tag is the empty string. *)
Definition allTagged (images : list ImageDesc) : Prop :=
  Forall (fun image => exists tags, RepoTags image = Some tags
                                    /\ Forall (fun t => t <> []) tags) images.

(** The quick pick answers with one of the items it was given. *)
Definition picks_among_items (T : Type)
    (showQuickPick : list ImageItem -> QuickPickOptions -> T + ImageItem) : Prop :=
  forall items options item,
    showQuickPick items options = inr item -> In item items.

(** Two images, a daemon that returns them, and a quick pick that answers
    with the first item. *)
Definition two_images : list ImageDesc :=
  [ {| Id := str "sha256:1"; RepoTags := Some [str "node:14"; str "node:latest"] |};
    {| Id := str "sha256:2"; RepoTags := Some [str "ubuntu:18.04"] |} ].

Definition daemon_with_two_images (f : ImageFilters)
    : unit + option (list ImageDesc) :=
  inr (Some two_images).

Definition first_item (items : list ImageItem) (o : QuickPickOptions)
    : unit + ImageItem :=
  match items with
  | it :: _ => inr it
  | [] => inl tt
  end.

End QuickPickShapes.

(** ** Lines up to letter case, and the characters of a FROM line *)

Module FromLineShapes.

(** Two lines that differ in the case of their letters only. *)
Definition same_up_to_case (a b : jsstring) : Prop :=
  Forall2 (fun c c' => to_upper c = to_upper c') a b.

(** The characters a recognized line is made of: whitespace, word
    characters, and the hyphen, the dot, the slash, the colon and the
    backslash. *)
Definition from_char (c : cu) : bool :=
  is_space c || is_word c || cu_eqb c 45 || cu_eqb c 46 || cu_eqb c 47
  || cu_eqb c 58 || cu_eqb c 92.

(** The state of the matcher at the end of [FROM node:14 AS builder]. *)
Definition builder_match : MatchState :=
  {| endIndex := 23; rest := [];
     captures := [(2, str " AS builder"); (1, str "node:14")] |}.

End FromLineShapes.

(** ** computeConfiguration, read without the loop *)

Module ConfigurationShapes.
Import Configuration.

(** [item.scopeUri] is truthy: a string that is not empty. *)
Definition scoped (item : ConfigurationItem) : bool :=
  match scopeUri item with
  | Some (_ :: _) => true
  | _ => false
  end.

Section ConfigurationOf.

Variables Uri WorkspaceConfiguration : Type.
Variable getConfiguration : option jsstring -> option Uri -> WorkspaceConfiguration.

(** The configuration of one item, with the client at hand: scoped to the
    converted URI when the item has one. *)
Definition configurationOf (c : LanguageClient Uri) (item : ConfigurationItem)
    : WorkspaceConfiguration :=
  match scopeUri item with
  | Some (u :: us) => getConfiguration (section item) (Some (asUri Uri c (u :: us)))
  | _ => getConfiguration (section item) None
  end.

(** The configuration of an item without a scope. *)
Definition unscopedConfiguration (item : ConfigurationItem)
    : WorkspaceConfiguration :=
  getConfiguration (section item) None.

End ConfigurationOf.

End ConfigurationShapes.

(** ** The runs of the matcher *)

Module RegexRuns.

(** [Run i r x y]: matching [r] can take the matcher from the state [x] to
    the state [y], captures included. *)
Inductive Run (i : bool) : regex -> MatchState -> MatchState -> Prop :=
| RunEmpty x : Run i Empty x x
| RunLit a c t x :
    rest x = c :: t -> char_eq i a c = true -> Run i (Lit a) x (advance x t)
| RunClass items c t x :
    rest x = c :: t -> class_matches i items c = true ->
    Run i (Class items) x (advance x t)
| RunNotClass items c t x :
    rest x = c :: t -> class_matches i items c = false ->
    Run i (NotClass items) x (advance x t)
| RunSeq r1 r2 x y z :
    Run i r1 x y -> Run i r2 y z -> Run i (Seq r1 r2) x z
| RunAltL r1 r2 x y : Run i r1 x y -> Run i (Alt r1 r2) x y
| RunAltR r1 r2 x y : Run i r2 x y -> Run i (Alt r1 r2) x y
| RunStar0 r x : Run i (Star r) x x
| RunStarS r x y z :
    Run i r (clear_captures (groups r) x) y -> Run i (Star r) y z ->
    Run i (Star r) x z
| RunGroup n r x y :
    Run i r x y ->
    Run i (Group n r) x
      (set_capture n (take (endIndex y - endIndex x) (rest x)) y)
| RunBol x : endIndex x = 0 -> Run i Bol x x
| RunEol x : rest x = [] -> Run i Eol x x.

End RegexRuns.
Import RegexRuns.

(** * Part III: theorems *)

(** ** Strings *)

Module JsStringFacts.

Lemma jseqb_eq a b : jseqb a b = true <-> a = b.
Proof.
  revert b; induction a as [|x a IH]; intros [|y b]; simpl; try easy.
  rewrite andb_true_iff, IH. unfold cu_eqb. rewrite N.eqb_eq.
  split; [intros [-> ->]; reflexivity | intros [= -> ->]; auto].
Qed.

Lemma jseqb_refl a : jseqb a a = true.
Proof. apply jseqb_eq; reflexivity. Qed.

End JsStringFacts.
Import JsStringFacts.

(** ** The matcher recognizes what the pattern describes *)

Module RegexSpec.

#[local] Hint Constructors Matches : core.

Lemma is_Some_orelse {A} (a b : option A) :
  is_Some (match a with Some z => Some z | None => b end)
  <-> is_Some a \/ is_Some b.
Proof.
  destruct a as [z|]; simpl.
  - split; [intros _; left; eauto | intros _; eauto].
  - split; [intros H; right; exact H | intros [[? [=]]|H]; exact H].
Qed.

Lemma not_is_Some_None {A} : ~ is_Some (@None A).
Proof. intros [? [=]]. Qed.

Lemma repeat_matcher_spec i r body n :
  sound_for i r body ->
  forall k K, reads k K ->
  forall x, length (rest x) <= n ->
    is_Some (repeat_matcher body (groups r) n x k)
    <-> accepts i (Star r) K (endIndex x) (rest x).
Proof.
  intros Hbody k K HK. induction n as [|n IH]; intros x Hlen; simpl.
  - destruct (rest x) as [|c u] eqn:Hr; [|simpl in Hlen; lia].
    rewrite (HK x), Hr. split.
    + intros H. exists [], []. rewrite Nat.add_0_r. auto.
    + intros (s & t & Hst & HM & HKt).
      symmetry in Hst. apply app_eq_nil in Hst as [-> ->].
      simpl in HKt. rewrite Nat.add_0_r in HKt. exact HKt.
  - rewrite is_Some_orelse.
    set (K' := fun p u => length u < length (rest x)
                          /\ accepts i (Star r) K p u).
    assert (HK' : reads
      (fun y => if length (rest y) <? length (rest x)
                then repeat_matcher body (groups r) n y k else None) K').
    { intros y. unfold K'. destruct (Nat.ltb_spec (length (rest y)) (length (rest x))).
      - rewrite IH by lia. tauto.
      - split; [intros H'; destruct (not_is_Some_None H') | lia]. }
    rewrite (Hbody _ _ HK' (clear_captures (groups r) x)). simpl.
    rewrite (HK x). split.
    + intros [(s1 & u & Hx & HM1 & Hlt & s2 & t & Hu & HM2 & HKt) | H].
      * subst u. exists (s1 ++ s2), t. rewrite <- app_assoc. split; [exact Hx|].
        split.
        -- apply MStarS; auto. intros ->. rewrite Hx in Hlt. simpl in Hlt. lia.
        -- rewrite length_app, Nat.add_assoc. exact HKt.
      * exists [], (rest x). rewrite Nat.add_0_r. auto.
    + intros (s & t & Hx & HM & HKt). inversion HM; subst.
      * right. simpl in *. rewrite Nat.add_0_r in HKt. rewrite Hx. exact HKt.
      * left. exists s1, (s2 ++ t). rewrite <- app_assoc in Hx.
        split; [exact Hx|]. split; [assumption|]. split.
        -- rewrite Hx, !length_app. destruct s1; [congruence|simpl; lia].
        -- exists s2, t. split; [reflexivity|]. split; [assumption|].
           rewrite length_app, Nat.add_assoc in HKt. exact HKt.
Qed.

Lemma matcher_spec i r : sound_for i r (matcher i r).
Proof.
  induction r as [|a|items|items|r1 IH1 r2 IH2|r1 IH1 r2 IH2|r IH|n r IH| |];
    intros k K HK x; simpl.
  - rewrite (HK x). split.
    + intros H. exists [], (rest x). rewrite Nat.add_0_r. auto.
    + intros (s & t & Hx & HM & HKt). inversion HM; subst.
      simpl in *. rewrite Nat.add_0_r in HKt. rewrite Hx. exact HKt.
  - destruct (rest x) as [|c u] eqn:Hr.
    + split; [intros H; destruct (not_is_Some_None H)|].
      intros (s & t & Hx & HM & _). inversion HM; subst. discriminate.
    + destruct (char_eq i a c) eqn:Hc.
      * rewrite (HK (advance x u)). simpl. split.
        -- intros H. exists [c], u. simpl. rewrite Nat.add_1_r. auto.
        -- intros (s & t & Hx & HM & HKt). inversion HM; subst.
           simpl in *. injection Hx as -> ->. rewrite Nat.add_1_r in HKt. exact HKt.
      * split; [intros H; destruct (not_is_Some_None H)|].
        intros (s & t & Hx & HM & _). inversion HM; subst.
        simpl in Hx. injection Hx as -> ->. congruence.
  - destruct (rest x) as [|c u] eqn:Hr.
    + split; [intros H; destruct (not_is_Some_None H)|].
      intros (s & t & Hx & HM & _). inversion HM; subst. discriminate.
    + destruct (class_matches i items c) eqn:Hc.
      * rewrite (HK (advance x u)). simpl. split.
        -- intros H. exists [c], u. simpl. rewrite Nat.add_1_r. auto.
        -- intros (s & t & Hx & HM & HKt). inversion HM; subst.
           simpl in *. injection Hx as -> ->. rewrite Nat.add_1_r in HKt. exact HKt.
      * split; [intros H; destruct (not_is_Some_None H)|].
        intros (s & t & Hx & HM & _). inversion HM; subst.
        simpl in Hx. injection Hx as -> ->. congruence.
  - destruct (rest x) as [|c u] eqn:Hr.
    + split; [intros H; destruct (not_is_Some_None H)|].
      intros (s & t & Hx & HM & _). inversion HM; subst. discriminate.
    + destruct (class_matches i items c) eqn:Hc.
      * split; [intros H; destruct (not_is_Some_None H)|].
        intros (s & t & Hx & HM & _). inversion HM; subst.
        simpl in Hx. injection Hx as -> ->. congruence.
      * rewrite (HK (advance x u)). simpl. split.
        -- intros H. exists [c], u. simpl. rewrite Nat.add_1_r. auto.
        -- intros (s & t & Hx & HM & HKt). inversion HM; subst.
           simpl in *. injection Hx as -> ->. rewrite Nat.add_1_r in HKt. exact HKt.
  - assert (H2 : reads (fun y => matcher i r2 y k) (accepts i r2 K)).
    { intros y. apply IH2, HK. }
    rewrite (IH1 _ _ H2 x). split.
    + intros (s1 & u & Hx & HM1 & s2 & t & -> & HM2 & HKt).
      exists (s1 ++ s2), t. rewrite <- app_assoc. split; [exact Hx|].
      split; [auto|]. rewrite length_app, Nat.add_assoc. exact HKt.
    + intros (s & t & Hx & HM & HKt). inversion HM; subst.
      exists s1, (s2 ++ t). rewrite <- app_assoc in Hx. split; [exact Hx|].
      split; [assumption|]. exists s2, t. split; [reflexivity|].
      split; [assumption|]. rewrite length_app, Nat.add_assoc in HKt. exact HKt.
  - rewrite is_Some_orelse, (IH1 _ _ HK x), (IH2 _ _ HK x). split.
    + intros [(s & t & ? & ? & ?)|(s & t & ? & ? & ?)]; exists s, t; auto.
    + intros (s & t & Hx & HM & HKt). inversion HM; subst;
        [left|right]; exists s, t; auto.
  - apply (repeat_matcher_spec i r (matcher i r) _ IH k K HK x). lia.
  - assert (H' : reads
      (fun y => k (set_capture n (take (endIndex y - endIndex x) (rest x)) y)) K).
    { intros y. rewrite (HK _). reflexivity. }
    rewrite (IH _ _ H' x). split.
    + intros (s & t & ? & ? & ?); exists s, t; auto.
    + intros (s & t & Hx & HM & HKt). inversion HM; subst. exists s, t; auto.
  - destruct (Nat.eqb_spec (endIndex x) 0) as [E|E].
    + rewrite (HK x), E. split.
      * intros H. exists [], (rest x). auto.
      * intros (s & t & Hx & HM & HKt). inversion HM; subst.
        simpl in *. rewrite Hx. exact HKt.
    + split; [intros H; destruct (not_is_Some_None H)|].
      intros (s & t & Hx & HM & _). inversion HM; subst. congruence.
  - destruct (rest x) as [|c u] eqn:Hr.
    + rewrite (HK x), Hr. split.
      * intros H. exists [], []. rewrite Nat.add_0_r. auto.
      * intros (s & t & Hx & HM & HKt). inversion HM; subst.
        simpl in *. rewrite Nat.add_0_r in HKt. exact HKt.
    + split; [intros H; destruct (not_is_Some_None H)|].
      intros (s & t & Hx & HM & _). inversion HM; subst. discriminate.
Qed.

Lemma matcher_top i r idx s :
  is_Some (matcher i r {| endIndex := idx; rest := s; captures := [] |} Some)
  <-> exists m t, s = m ++ t /\ Matches i r idx m t.
Proof.
  assert (H : reads Some (fun _ _ => True)).
  { intros y. split; eauto. }
  rewrite (matcher_spec i r _ _ H). unfold accepts. simpl.
  split; intros (m & t & ?); exists m, t; tauto.
Qed.

Lemma scan_spec i r s : forall idx,
  is_Some (scan i r idx s)
  <-> exists pre m t, s = pre ++ m ++ t /\ Matches i r (idx + length pre) m t.
Proof.
  induction s as [|c s IH]; intros idx; simpl.
  - destruct (matcher i r _ Some) as [y|] eqn:E.
    + split; [intros _|eauto].
      assert (Hs : is_Some (matcher i r
        {| endIndex := idx; rest := []; captures := [] |} Some)) by (rewrite E; eauto).
      apply matcher_top in Hs as (m & t & Hmt & HM).
      exists [], m, t. simpl. rewrite Nat.add_0_r. auto.
    + split; [intros H; destruct (not_is_Some_None H)|].
      intros (pre & m & t & Hs & HM).
      symmetry in Hs. apply app_eq_nil in Hs as [-> Hs]. simpl in HM.
      rewrite Nat.add_0_r in HM.
      assert (Hs' : is_Some (matcher i r
        {| endIndex := idx; rest := []; captures := [] |} Some)).
      { apply matcher_top. exists m, t. auto. }
      rewrite E in Hs'. destruct (not_is_Some_None Hs').
  - destruct (matcher i r _ Some) as [y|] eqn:E.
    + split; [intros _|eauto].
      assert (Hs : is_Some (matcher i r
        {| endIndex := idx; rest := c :: s; captures := [] |} Some)) by (rewrite E; eauto).
      apply matcher_top in Hs as (m & t & Hmt & HM).
      exists [], m, t. simpl. rewrite Nat.add_0_r. auto.
    + rewrite IH. split.
      * intros (pre & m & t & -> & HM). exists (c :: pre), m, t. simpl.
        rewrite Nat.add_succ_r. auto.
      * intros (pre & m & t & Hs & HM). destruct pre as [|c' pre].
        -- simpl in *. rewrite Nat.add_0_r in HM.
           assert (Hs' : is_Some (matcher i r
             {| endIndex := idx; rest := c :: s; captures := [] |} Some)).
           { apply matcher_top. exists m, t. auto. }
           rewrite E in Hs'. destruct (not_is_Some_None Hs').
        -- simpl in Hs. injection Hs as -> ->. exists pre, m, t.
           simpl in HM. rewrite Nat.add_succ_r in HM. auto.
Qed.

(** [test] succeeds exactly when the pattern matches some substring. *)
Lemma test_spec re s :
  test re s = true
  <-> exists pre m t, s = pre ++ m ++ t
        /\ Matches (ignoreCase re) (source re) (length pre) m t.
Proof.
  unfold test, exec. rewrite <- (scan_spec _ _ s 0).
  destruct (scan _ _ 0 s); split; intros H; eauto; try discriminate.
  destruct (not_is_Some_None H).
Qed.

(** *** Reading a pattern piece by piece *)

Lemma Matches_seq i r1 r2 p s t :
  Matches i (Seq r1 r2) p s t
  <-> exists s1 s2, s = s1 ++ s2 /\ Matches i r1 p s1 (s2 ++ t)
        /\ Matches i r2 (p + length s1) s2 t.
Proof.
  split.
  - intros H. inversion H; subst. eauto.
  - intros (s1 & s2 & -> & H1 & H2). auto.
Qed.

Lemma Matches_alt i r1 r2 p s t :
  Matches i (Alt r1 r2) p s t <-> Matches i r1 p s t \/ Matches i r2 p s t.
Proof.
  split.
  - intros H. inversion H; subst; auto.
  - intros [H|H]; auto.
Qed.

Lemma Matches_empty i p s t : Matches i Empty p s t <-> s = [].
Proof. split; [intros H; inversion H; auto | intros ->; auto]. Qed.

Lemma Matches_opt i r p s t :
  Matches i (Opt r) p s t <-> Matches i r p s t \/ s = [].
Proof. unfold Opt. rewrite Matches_alt, Matches_empty. reflexivity. Qed.

Lemma Matches_group i n r p s t :
  Matches i (Group n r) p s t <-> Matches i r p s t.
Proof. split; [intros H; inversion H; auto | auto]. Qed.

Lemma Matches_bol i p s t : Matches i Bol p s t <-> p = 0 /\ s = [].
Proof. split; [intros H; inversion H; auto | intros [-> ->]; auto]. Qed.

Lemma Matches_eol i p s t : Matches i Eol p s t <-> s = [] /\ t = [].
Proof. split; [intros H; inversion H; auto | intros [-> ->]; auto]. Qed.

Lemma Matches_lit i a p s t :
  Matches i (Lit a) p s t <-> exists c, s = [c] /\ char_eq i a c = true.
Proof.
  split; [intros H; inversion H; eauto | intros (c & -> & H); auto].
Qed.

Lemma Matches_class i items p s t :
  Matches i (Class items) p s t
  <-> exists c, s = [c] /\ class_matches i items c = true.
Proof.
  split; [intros H; inversion H; eauto | intros (c & -> & H); auto].
Qed.

Lemma Matches_star_class i items p s t :
  Matches i (Star (Class items)) p s t
  <-> Forall (fun c => class_matches i items c = true) s.
Proof.
  split.
  - intros H. remember (Star (Class items)) as r eqn:Hr.
    induction H; try discriminate; injection Hr as ->.
    + constructor.
    + apply Forall_app. split; [|auto].
      match goal with H : Matches _ (Class _) _ _ _ |- _ => inversion H; subst end.
      repeat constructor. assumption.
  - revert p. induction s as [|c s IH]; intros p H.
    + constructor.
    + inversion H; subst. change (c :: s) with ([c] ++ s).
      apply MStarS; [discriminate|auto|apply IH; assumption].
Qed.

Lemma Matches_plus_class i items p s t :
  Matches i (Plus (Class items)) p s t
  <-> s <> [] /\ Forall (fun c => class_matches i items c = true) s.
Proof.
  unfold Plus. rewrite Matches_seq. split.
  - intros (s1 & s2 & -> & H1 & H2).
    apply Matches_class in H1 as (c & -> & Hc).
    apply Matches_star_class in H2. split; [discriminate|].
    constructor; assumption.
  - intros [Hne H]. destruct s as [|c s]; [congruence|]. inversion H; subst.
    exists [c], s. split; [reflexivity|]. split.
    + apply Matches_class. eauto.
    + apply Matches_star_class. assumption.
Qed.

Lemma Matches_lits i w : forall p s t,
  Matches i (lits w) p s t <-> spells i w s.
Proof.
  unfold spells. induction w as [|a w IH]; intros p s t.
  - simpl. rewrite Matches_empty. split.
    + intros ->. constructor.
    + intros H. inversion H. reflexivity.
  - destruct w as [|b w].
    + simpl. rewrite Matches_lit. split.
      * intros (c & -> & Hc). repeat constructor. assumption.
      * intros H. inversion H as [|? c ? l' Hc Hl]; subst. inversion Hl; subst. eauto.
    + change (lits (a :: b :: w)) with (Seq (Lit a) (lits (b :: w))).
      rewrite Matches_seq. split.
      * intros (s1 & s2 & -> & H1 & H2).
        apply Matches_lit in H1 as (c & -> & Hc). apply IH in H2.
        constructor; assumption.
      * intros H. inversion H as [|? c ? l' Hc Hl]; subst.
        exists [c], l'. split; [reflexivity|]. split.
        -- apply Matches_lit. eauto.
        -- apply IH. assumption.
Qed.

Lemma Matches_notclass i items p s t :
  Matches i (NotClass items) p s t
  <-> exists c, s = [c] /\ class_matches i items c = false.
Proof.
  split; [intros H; inversion H; eauto | intros (c & -> & H); auto].
Qed.

Lemma Matches_star_notclass i items p s t :
  Matches i (Star (NotClass items)) p s t
  <-> Forall (fun c => class_matches i items c = false) s.
Proof.
  split.
  - intros H. remember (Star (NotClass items)) as r eqn:Hr.
    induction H; try discriminate; injection Hr as ->.
    + constructor.
    + apply Forall_app. split; [|auto].
      match goal with H : Matches _ (NotClass _) _ _ _ |- _ => inversion H; subst end.
      repeat constructor. assumption.
  - revert p. induction s as [|c s IH]; intros p H.
    + constructor.
    + inversion H; subst. change (c :: s) with ([c] ++ s).
      apply MStarS; [discriminate|auto|apply IH; assumption].
Qed.

Lemma spells_exact w s : spells false w s <-> s = w.
Proof.
  unfold spells. split.
  - intros H. induction H as [|a c w' s' Hc _ IH]; [reflexivity|].
    simpl in Hc. apply N.eqb_eq in Hc. congruence.
  - intros ->. induction w as [|a w IH]; constructor; [|exact IH].
    simpl. apply N.eqb_refl.
Qed.

Lemma Matches_lit_chain i w r : forall p s t,
  Matches i (lit_chain w r) p s t
  <-> exists s1 s2, s = s1 ++ s2 /\ spells i w s1
        /\ Matches i r (p + length s1) s2 t.
Proof.
  unfold spells. induction w as [|a w IH]; intros p s t; simpl.
  - split.
    + intros H. exists [], s. simpl. rewrite Nat.add_0_r.
      split; [reflexivity|]. split; [constructor|exact H].
    + intros (s1 & s2 & -> & Hw & H). inversion Hw; subst.
      simpl in H. rewrite Nat.add_0_r in H. exact H.
  - rewrite Matches_seq. split.
    + intros (c1 & s' & -> & Hc & H). apply Matches_lit in Hc as (c & -> & Hc).
      apply IH in H as (s1 & s2 & -> & Hw & H).
      exists (c :: s1), s2. split; [reflexivity|]. split; [constructor; assumption|].
      simpl in *. rewrite Nat.add_succ_r. rewrite Nat.add_1_r in H. exact H.
    + intros (s1 & s2 & -> & Hw & H). inversion Hw as [|? c ? s1' Hc Hw']; subst.
      exists [c], (s1' ++ s2). split; [reflexivity|]. split.
      * apply Matches_lit. eauto.
      * apply IH. exists s1', s2. split; [reflexivity|]. split; [assumption|].
        simpl in *. rewrite Nat.add_succ_r in H. rewrite Nat.add_1_r. exact H.
Qed.

End RegexSpec.

(** ** The FROM line *)

Module FromDirective.
Import RegexSpec.
Local Open Scope regex_scope.

Ltac cu_decide :=
  unfold cu_eqb, in_range;
  repeat match goal with
  | |- context [N.leb ?a ?b] =>
      first [ replace (N.leb a b) with true by (symmetry; apply N.leb_le; lia)
            | replace (N.leb a b) with false by (symmetry; apply N.leb_gt; lia) ]
  | |- context [N.eqb ?a ?b] =>
      first [ replace (N.eqb a b) with true by (symmetry; apply N.eqb_eq; lia)
            | replace (N.eqb a b) with false by (symmetry; apply N.eqb_neq; lia) ]
  | _ => progress cbn [orb andb]
  end.

Ltac cu_bands c :=
  assert (c < 45 \/ c = 45 \/ c = 46 \/ c = 47 \/ 48 <= c <= 57 \/ c = 58
          \/ 58 < c < 65 \/ 65 <= c <= 90 \/ c = 91 \/ c = 92 \/ 92 < c < 95
          \/ c = 95 \/ c = 96 \/ 97 <= c <= 122 \/ 122 < c)%N as Hband by lia;
  repeat destruct Hband as [Hband|Hband].

Lemma class_space c : class_matches true [ASpace] c = is_space c.
Proof. simpl. apply orb_false_r. Qed.

Lemma class_image c :
  class_matches true [AWord; AChar 45; AChar 47; AChar 58] c = image_char c.
Proof.
  unfold class_matches, image_char, atom_matches, existsb, char_eq, is_word,
    is_alpha, is_digit, to_upper, is_lower, is_upper.
  cu_bands c; cu_decide; reflexivity.
Qed.

Lemma class_alias_head c : class_matches true [ARange 97 122] c = is_alpha c.
Proof.
  unfold class_matches, atom_matches, existsb, is_alpha, to_upper, to_lower,
    is_lower, is_upper.
  cu_bands c; cu_decide; reflexivity.
Qed.

Lemma class_alias c :
  class_matches true [ARange 97 122; ARange 48 57; AChar 45; AChar 95;
                      AChar 92; AChar 46] c = alias_char c.
Proof.
  unfold class_matches, alias_char, atom_matches, existsb, char_eq, is_alpha,
    is_digit, to_upper, to_lower, is_lower, is_upper.
  cu_bands c; cu_decide; reflexivity.
Qed.

Lemma Forall_bool_ext (f g : cu -> bool) (s : jsstring) :
  (forall c, f c = g c) ->
  Forall (fun c => f c = true) s <-> Forall (fun c => g c = true) s.
Proof.
  intros E. split; intros H; eapply Forall_impl; try exact H;
    intros c Hc; cbv beta in *; congruence.
Qed.

Lemma blank_class s :
  Forall (fun c => class_matches true [ASpace] c = true) s <-> blank s.
Proof. apply Forall_bool_ext, class_space. Qed.

Lemma image_class s :
  Forall (fun c => class_matches true [AWord; AChar 45; AChar 47; AChar 58] c = true) s
  <-> Forall (fun c => image_char c = true) s.
Proof. apply Forall_bool_ext, class_image. Qed.

Lemma alias_class s :
  Forall (fun c => class_matches true
            [ARange 97 122; ARange 48 57; AChar 45; AChar 95; AChar 92; AChar 46] c
            = true) s
  <-> Forall (fun c => alias_char c = true) s.
Proof. apply Forall_bool_ext, class_alias. Qed.

Lemma alias_group_shape p s t :
  Matches true alias_group p s t <-> alias_clause s.
Proof.
  unfold alias_group, alias_clause. split.
  - intros H.
    apply Matches_seq in H as (w3 & m1 & -> & Hw3 & H).
    apply Matches_star_class, blank_class in Hw3.
    apply Matches_seq in H as (kw & m2 & -> & Hkw & H).
    apply Matches_lits in Hkw.
    apply Matches_seq in H as (w4 & m3 & -> & Hw4 & H).
    apply Matches_star_class, blank_class in Hw4.
    apply Matches_seq in H as (hd & al & -> & Hhd & H).
    apply Matches_class in Hhd as (a & -> & Ha). rewrite class_alias_head in Ha.
    apply Matches_star_class, alias_class in H.
    exists w3, kw, w4, a, al. auto 10.
  - intros (w3 & kw & w4 & a & al & -> & Hw3 & Hkw & Hw4 & Ha & Hal).
    apply Matches_seq. exists w3, (kw ++ w4 ++ a :: al). split; [reflexivity|].
    split; [apply Matches_star_class, blank_class; exact Hw3|].
    apply Matches_seq. exists kw, (w4 ++ a :: al). split; [reflexivity|].
    split; [apply Matches_lits; exact Hkw|].
    apply Matches_seq. exists w4, (a :: al). split; [reflexivity|].
    split; [apply Matches_star_class, blank_class; exact Hw4|].
    apply Matches_seq. exists [a], al. split; [reflexivity|].
    split.
    + apply Matches_class. exists a. rewrite class_alias_head. auto.
    + apply Matches_star_class, alias_class. exact Hal.
Qed.

Lemma from_pattern_shape line :
  test FROM_DIRECTIVE_PATTERN line = true <-> from_line line.
Proof.
  rewrite test_spec. unfold FROM_DIRECTIVE_PATTERN. cbn [source ignoreCase].
  fold alias_group. unfold from_line. split.
  - intros (pre & m & t & -> & H).
    apply Matches_seq in H as (s0 & m1 & -> & HB & H).
    apply Matches_bol in HB as [Hp ->].
    destruct pre; [|discriminate]. clear Hp. cbn [app] in *.
    apply Matches_seq in H as (w1 & m2 & -> & Hw1 & H).
    apply Matches_star_class, blank_class in Hw1.
    apply Matches_seq in H as (kw & m3 & -> & Hkw & H).
    apply Matches_lits in Hkw.
    apply Matches_seq in H as (w2 & m4 & -> & Hw2 & H).
    apply Matches_star_class, blank_class in Hw2.
    apply Matches_seq in H as (img & m5 & -> & Himg & H).
    apply Matches_group, Matches_star_class, image_class in Himg.
    apply Matches_seq in H as (tail & m6 & -> & Htail & H).
    apply Matches_eol in H as [-> ->].
    apply Matches_opt in Htail.
    exists w1, kw, w2, img, tail. rewrite !app_nil_r.
    repeat (split; [solve [auto]|]).
    destruct Htail as [Htail| ->]; [right|left; reflexivity].
    apply Matches_group, alias_group_shape in Htail. exact Htail.
  - intros (w1 & kw & w2 & img & tail & -> & Hw1 & Hkw & Hw2 & Himg & Htail).
    exists [], (w1 ++ kw ++ w2 ++ img ++ tail), []. split.
    { simpl. rewrite app_nil_r. reflexivity. }
    apply (Matches_seq _ _ _ _ _ _). exists [], (w1 ++ kw ++ w2 ++ img ++ tail).
    split; [reflexivity|]. split; [apply Matches_bol; auto|].
    apply Matches_seq. exists w1, (kw ++ w2 ++ img ++ tail). split; [reflexivity|].
    split; [apply Matches_star_class, blank_class; exact Hw1|].
    apply Matches_seq. exists kw, (w2 ++ img ++ tail). split; [reflexivity|].
    split; [apply Matches_lits; exact Hkw|].
    apply Matches_seq. exists w2, (img ++ tail). split; [reflexivity|].
    split; [apply Matches_star_class, blank_class; exact Hw2|].
    apply Matches_seq. exists img, tail. split; [reflexivity|].
    split; [apply Matches_group, Matches_star_class, image_class; exact Himg|].
    apply Matches_seq. exists tail, []. split; [rewrite app_nil_r; reflexivity|].
    split; [|apply Matches_eol; auto].
    apply Matches_opt. destruct Htail as [->|Htail]; [right; reflexivity|left].
    apply Matches_group, alias_group_shape. exact Htail.
Qed.

(** The match of a FROM line with an alias: it starts at index 0, the
    first group is the image reference, the second the alias clause. *)
Lemma from_pattern_groups :
  let m := exec FROM_DIRECTIVE_PATTERN (str "FROM node:14 AS builder") in
  fst <$> m = Some 0
  /\ group_of m 1 = Some (str "node:14")
  /\ group_of m 2 = Some (str " AS builder")
  /\ group_of (exec FROM_DIRECTIVE_PATTERN (str "FROM node:14")) 2 = None.
Proof. repeat split; vm_compute; reflexivity. Qed.

(** Where the pattern of the extension and the pattern of the
    specification part: a dot in the image reference, whitespace after the
    line, no whitespace after FROM, no image reference, a backslash in the
    alias.  Each pair is the answer of the extension, then the answer of
    the specification. *)
Lemma from_patterns_differ_at :
  map (fun line => (test FROM_DIRECTIVE_PATTERN line, test SPEC_FROM_PATTERN line))
    [str "FROM ubuntu:18.04"; str "FROM ubuntu "; str "FROMubuntu"; str "FROM ";
     str "FROM a AS b\c"; str "FROM node:14 AS builder"; str "from node"]
  = [(false, true); (false, true); (true, false); (true, false);
     (true, false); (true, true); (true, true)].
Proof. vm_compute. reflexivity. Qed.

(** C1, as stated, fails: the specification's pattern recognizes
    [FROM ubuntu:18.04], the pattern of the extension does not, so the
    two do not recognize the same lines. *)
Lemma from_pattern_is_not_spec_pattern :
  ~ (forall line : jsstring,
       test FROM_DIRECTIVE_PATTERN line = true
       <-> test SPEC_FROM_PATTERN line = true).
Proof.
  intros H. destruct (H (str "FROM ubuntu:18.04")) as [_ H'].
  assert (E : test FROM_DIRECTIVE_PATTERN (str "FROM ubuntu:18.04") = true)
    by (apply H'; vm_compute; reflexivity).
  vm_compute in E. discriminate E.
Qed.

(** Whitespace is none of the characters of an image reference or of an
    alias. *)
Lemma space_not_image c : is_space c = true -> image_char c = false.
Proof.
  unfold is_space, image_char, is_word, is_alpha, is_digit, is_lower, is_upper.
  cu_bands c; cu_decide; intros ?; first [reflexivity | discriminate].
Qed.

Lemma space_not_alias c : is_space c = true -> alias_char c = false.
Proof.
  unfold is_space, alias_char, is_alpha, is_digit, is_lower, is_upper.
  cu_bands c; cu_decide; intros ?; first [reflexivity | discriminate].
Qed.

Lemma space_not_alpha c : is_space c = true -> is_alpha c = false.
Proof.
  unfold is_space, is_alpha, is_lower, is_upper.
  cu_bands c; cu_decide; intros ?; first [reflexivity | discriminate].
Qed.

(** The last character of a text is the last character of its last part
    that is not empty. *)
Lemma last_part {A} (x y l : list A) (c : A) :
  x ++ y = l ++ [c] -> y <> [] -> exists y', y = y' ++ [c].
Proof.
  intros E Hy. destruct y as [|z y'] using rev_ind; [congruence|].
  rewrite app_assoc in E. apply app_inj_tail in E as [_ ->]. eauto.
Qed.

(** A line of the shape of the pattern that ends in whitespace has neither
    an image reference nor an alias. *)
Lemma from_line_ends_blank line c :
  is_space c = true -> from_line (line ++ [c]) ->
  exists ws1 kw ws2,
    line ++ [c] = ws1 ++ kw ++ ws2
    /\ blank ws1 /\ spells true (str "FROM") kw /\ blank ws2.
Proof.
  intros Hc (w1 & kw & w2 & img & tail & E & Hw1 & Hkw & Hw2 & Himg & Htail).
  assert (Htl : tail = []).
  { destruct Htail as [->|(w3 & kw2 & w4 & a & al & -> & _ & _ & _ & Ha & Hal)];
      [reflexivity|]. exfalso.
    rewrite !app_assoc in E. symmetry in E.
    destruct (last_part _ (a :: al) _ _ E) as (y & Hy); [discriminate|].
    destruct al as [|b al'] using rev_ind.
    - destruct y; [|destruct y; discriminate]. injection Hy as ->.
      rewrite (space_not_alpha _ Hc) in Ha. discriminate.
    - rewrite app_comm_cons in Hy. apply app_inj_tail in Hy as [_ ->].
      apply Forall_app in Hal as [_ Hb]. inversion Hb as [|? ? Hb' _]; subst.
      rewrite (space_not_alias _ Hc) in Hb'. discriminate. }
  subst tail. rewrite app_nil_r in E.
  assert (Him : img = []).
  { destruct img as [|b img'] using rev_ind; [reflexivity|]. exfalso.
    rewrite !app_assoc in E. apply app_inj_tail in E as [_ ->].
    apply Forall_app in Himg as [_ Hb]. inversion Hb as [|? ? Hb' _]; subst.
    rewrite (space_not_image _ Hc) in Hb'. discriminate. }
  subst img. rewrite app_nil_r in E. exists w1, kw, w2. auto.
Qed.

(** C1, amended: a line is recognized exactly when it reads: optional
    whitespace, FROM in any case, optional whitespace, a possibly empty
    run of word characters, hyphens, slashes and colons, and then either
    nothing or an alias clause (optional whitespace, AS in any case,
    optional whitespace, a letter, and a run of letters, digits, hyphens,
    underscores, backslashes and dots).  So [FROM ubuntu:18.04] is not
    recognized (no dot in an image reference), and [FROMubuntu] is (the
    whitespace after FROM may be missing).  Nothing follows the image
    reference or the alias: a recognized line that ends in whitespace is
    FROM between two runs of whitespace, with an empty image reference
    and no alias; so [FROM ubuntu ] is not recognized and [FROM ] is. *)
Theorem from_directive_pattern_recognizes :
  (forall line : jsstring,
     test FROM_DIRECTIVE_PATTERN line = true <-> from_line line)
  /\ test FROM_DIRECTIVE_PATTERN (str "FROM ubuntu:18.04") = false
  /\ test FROM_DIRECTIVE_PATTERN (str "FROM ubuntu ") = false
  /\ test FROM_DIRECTIVE_PATTERN (str "FROMubuntu") = true
  /\ test FROM_DIRECTIVE_PATTERN (str "FROM ubuntu") = true
  /\ (forall (line : jsstring) (c : cu),
        is_space c = true ->
        test FROM_DIRECTIVE_PATTERN (line ++ [c]) = true ->
        exists ws1 kw ws2,
          line ++ [c] = ws1 ++ kw ++ ws2
          /\ blank ws1 /\ spells true (str "FROM") kw /\ blank ws2)
  /\ test FROM_DIRECTIVE_PATTERN (str "FROM ") = true.
Proof.
  split; [exact from_pattern_shape|].
  do 4 (split; [vm_compute; reflexivity|]).
  split; [|vm_compute; reflexivity].
  intros line c Hc H. apply from_pattern_shape in H.
  apply from_line_ends_blank; assumption.
Qed.

End FromDirective.

(** ** The image quick pick *)

Module QuickPickImageFacts.
Import QuickPickImage.

Lemma fold_left_ext_in {A B} (f g : A -> B -> A) (l : list B) :
  (forall a b, In b l -> f a b = g a b) ->
  forall a, fold_left f l a = fold_left g l a.
Proof.
  induction l as [|b l IH]; intros H a; simpl; [reflexivity|].
  rewrite (H a b) by (left; reflexivity).
  apply IH. intros a' b' Hb. apply H. right. exact Hb.
Qed.

(** An indexed loop that appends [f x] for every element [x]. *)
Lemma for_range_append {A B} (f : A -> list B) (l : list A) (init : list B) :
  for_range (length l)
    (fun i acc => match l !! i with Some x => acc ++ f x | None => acc end) init
  = init ++ flat_map f l.
Proof.
  unfold for_range. induction l as [|x l IH] using rev_ind; simpl.
  - rewrite app_nil_r. reflexivity.
  - rewrite length_app. simpl. rewrite Nat.add_1_r, seq_S, fold_left_app. simpl.
    rewrite (fold_left_ext_in _
      (fun acc i => match l !! i with Some x => acc ++ f x | None => acc end)).
    + rewrite IH. rewrite lookup_app_r by lia. rewrite Nat.sub_diag. simpl.
      rewrite flat_map_app. simpl. rewrite app_nil_r, app_assoc. reflexivity.
    + intros a i Hi. apply in_seq in Hi. rewrite lookup_app_l by lia. reflexivity.
Qed.

Lemma for_range_ext {S} n (f g : nat -> S -> S) (s : S) :
  (forall i a, i < n -> f i a = g i a) ->
  for_range n f s = for_range n g s.
Proof.
  intros H. unfold for_range. apply fold_left_ext_in.
  intros a i Hi. apply in_seq in Hi. apply H. lia.
Qed.

Lemma flat_map_singleton {A B} (g : A -> B) (l : list A) :
  flat_map (fun x => [g x]) l = map g l.
Proof. induction l as [|x l IH]; simpl; congruence. Qed.

Lemma pushImages_eq (images : list ImageDesc) (init : list ImageItem) :
  pushImages images init = init ++ flat_map itemsOf images.
Proof.
  unfold pushImages.
  rewrite <- for_range_append. apply for_range_ext. intros i items _.
  destruct (images !! i) as [image|]; [|reflexivity].
  unfold itemsOf. destruct (RepoTags image) as [tags|]; [|reflexivity].
  rewrite <- flat_map_singleton, <- for_range_append.
  apply for_range_ext. intros j items' _.
  destruct (tags !! j); reflexivity.
Qed.

(** C10: the items are, image after image in the order of the input, one
    item per repo tag, or the single item [<none>:<none>] for an image
    without [RepoTags]; when [includeAll] is true and there is an image,
    the item [All Images] comes first; the number of items is the sum of
    the tag counts (1 for an image without [RepoTags]), plus 1 in that
    case. *)
Theorem computeItems_spec (images : list ImageDesc) (includeAll : option bool) :
  computeItems images includeAll
  = (if withAll images includeAll then [allImages] else [])
    ++ flat_map itemsOf images
  /\ length (computeItems images includeAll)
     = list_sum (map tagCount images)
       + (if withAll images includeAll then 1 else 0)
  /\ label allImages = str "All Images"
  /\ (forall id, itemsOf {| Id := id; RepoTags := None |}
        = [{| label := str "<none>:<none>";
              imageDesc := Some {| Id := id; RepoTags := None |} |}])
  /\ (forall id tags, itemsOf {| Id := id; RepoTags := Some tags |}
        = map (createItem {| Id := id; RepoTags := Some tags |}) tags).
Proof.
  assert (E : computeItems images includeAll
              = (if withAll images includeAll then [allImages] else [])
                ++ flat_map itemsOf images).
  { unfold computeItems. rewrite pushImages_eq.
    destruct includeAll as [[|]|], images; reflexivity. }
  split; [exact E|]. split; [|repeat split].
  rewrite E, length_app, Nat.add_comm. f_equal.
  - clear E. induction images as [|image images IH]; simpl; [reflexivity|].
    rewrite length_app, IH. f_equal.
    unfold itemsOf, tagCount. destruct (RepoTags image); [apply length_map|reflexivity].
  - destruct (withAll images includeAll); reflexivity.
Qed.

End QuickPickImageFacts.

(** ** Which documents go where *)

Module FileClassification.
Import Glob.
Import RegexSpec.
Local Open Scope regex_scope.

Lemma class_separators c : class_matches false separators c = is_separator c.
Proof.
  unfold class_matches, separators, is_separator, existsb, atom_matches,
    char_eq, cu_eqb.
  rewrite orb_false_r, (N.eqb_sym 47 c), (N.eqb_sym 92 c). reflexivity.
Qed.

Lemma class_pair a b c :
  class_matches false [AChar a; AChar b] c = true <-> c = a \/ c = b.
Proof.
  unfold class_matches, existsb, atom_matches, char_eq, cu_eqb.
  rewrite orb_false_r, orb_true_iff, !N.eqb_eq. intuition congruence.
Qed.

Lemma Matches_in_segment p s t :
  Matches false in_segment p s t <-> in_one_segment s.
Proof.
  unfold in_segment, in_one_segment. rewrite Matches_star_notclass.
  split; intros H; eapply Forall_impl; try exact H; intros c Hc; cbv beta in *;
    [rewrite <- class_separators | rewrite class_separators]; exact Hc.
Qed.

(** Up to the first separator. *)
Lemma first_separator s :
  Exists (fun c => is_separator c = true) s ->
  exists a c rest, s = a ++ c :: rest /\ in_one_segment a /\ is_separator c = true.
Proof.
  induction s as [|x s IH]; intros H; [inversion H|].
  destruct (is_separator x) eqn:Hx.
  - exists [], x, s. split; [reflexivity|]. split; [constructor|exact Hx].
  - inversion H as [? ? Hx'|? ? Hs]; subst; [congruence|].
    destruct (IH Hs) as (a & c & rest & -> & Ha & Hc).
    exists (x :: a), c, rest. split; [reflexivity|].
    split; [constructor; assumption|exact Hc].
Qed.

Lemma Matches_plus_notclass i items p s t :
  Matches i (Plus (NotClass items)) p s t
  <-> s <> [] /\ Forall (fun c => class_matches i items c = false) s.
Proof.
  unfold Plus. rewrite Matches_seq. split.
  - intros (s1 & s2 & -> & H1 & H2).
    apply Matches_notclass in H1 as (c & -> & Hc).
    apply Matches_star_notclass in H2. split; [discriminate|].
    constructor; assumption.
  - intros [Hne H]. destruct s as [|c s]; [congruence|]. inversion H; subst.
    exists [c], s. split; [reflexivity|]. split.
    + apply Matches_notclass. eauto.
    + apply Matches_star_notclass. assumption.
Qed.

Lemma Matches_segment_text p s t :
  Matches false (Plus (NotClass separators)) p s t
  <-> s <> [] /\ in_one_segment s.
Proof.
  rewrite Matches_plus_notclass. unfold in_one_segment.
  split; intros [Hne H]; (split; [exact Hne|]);
    eapply Forall_impl; try exact H; intros c Hc; cbv beta in *;
    [rewrite <- class_separators | rewrite class_separators]; exact Hc.
Qed.

Lemma Matches_separator p s t :
  Matches false (Class separators) p s t
  <-> exists c, s = [c] /\ is_separator c = true.
Proof.
  rewrite Matches_class. split; intros (c & -> & Hc); exists c;
    (split; [reflexivity|]);
    [rewrite <- class_separators | rewrite class_separators]; exact Hc.
Qed.

(** [**/] reads the runs of pieces. *)
Lemma Matches_globstar p s t :
  Matches false globstar p s t <-> globstar_prefix s.
Proof.
  split.
  - unfold globstar. intros H.
    remember (Star (Alt (Class separators)
                      (Alt (Plus (NotClass separators) +> Class separators)
                           (Class separators +> Plus (NotClass separators)))))
      as r eqn:Hr.
    induction H; try discriminate; injection Hr as ->.
    + constructor.
    + match goal with H : Matches _ (Alt _ _) _ _ _ |- _ =>
        apply Matches_alt in H as [H|H]; [|apply Matches_alt in H as [H|H]] end.
      * apply Matches_separator in H0 as (c & -> & Hc).
        cbn [app]. apply gp_sep; auto.
      * apply Matches_seq in H0 as (a & x & -> & Ha & Hx).
        apply Matches_segment_text in Ha as [Hne Ha].
        apply Matches_separator in Hx as (c & -> & Hc).
        rewrite <- app_assoc. cbn [app]. apply gp_before; auto.
      * apply Matches_seq in H0 as (x & a & -> & Hx & Ha).
        apply Matches_separator in Hx as (c & -> & Hc).
        apply Matches_segment_text in Ha as [Hne Ha].
        cbn [app]. apply gp_after; auto.
  - intros H. revert p. unfold globstar.
    induction H as [|c s Hc _ IH|a c s Hne Ha Hc _ IH|c a s Hc Hne Ha _ IH];
      intros p.
    + constructor.
    + change (c :: s) with ([c] ++ s). apply MStarS; [discriminate| |apply IH].
      apply Matches_alt. left. apply Matches_separator. eauto.
    + replace (a ++ c :: s) with ((a ++ [c]) ++ s)
        by (rewrite <- app_assoc; reflexivity).
      apply MStarS; [destruct a; discriminate| |apply IH].
      apply Matches_alt. right. apply Matches_alt. left.
      apply Matches_seq. exists a, [c]. split; [reflexivity|]. split.
      * apply Matches_segment_text. auto.
      * apply Matches_separator. eauto.
    + change (c :: a ++ s) with ((c :: a) ++ s).
      apply MStarS; [discriminate| |apply IH].
      apply Matches_alt. right. apply Matches_alt. right.
      apply Matches_seq. exists [c], a. split; [reflexivity|]. split.
      * apply Matches_separator. eauto.
      * apply Matches_segment_text. auto.
Qed.

(** Whole directories are such a run. *)
Lemma directories_globstar n : forall s,
  length s <= n -> directories s -> globstar_prefix s.
Proof.
  induction n as [|n IH]; intros s Hlen Hd.
  - destruct s; [constructor|simpl in Hlen; lia].
  - destruct Hd as [->|(s' & c & -> & Hc)]; [constructor|].
    destruct (first_separator (s' ++ [c])) as (a & x & rest & E & Ha & Hx).
    { apply Exists_app. right. constructor. exact Hc. }
    rewrite E.
    assert (Hrest : globstar_prefix rest).
    { apply IH.
      - rewrite E, length_app in Hlen. simpl in Hlen. lia.
      - destruct rest as [|y rest'] using rev_ind; [left; reflexivity|].
        right. exists rest', y. split; [reflexivity|].
        rewrite app_comm_cons, app_assoc in E. apply app_inj_tail in E as [_ <-].
        exact Hc. }
    destruct a as [|a0 a'].
    + apply gp_sep; assumption.
    + apply gp_before; [discriminate|assumption..].
Qed.

Lemma compose_glob_parsed :
  Glob.parse COMPOSE_FILE_GLOB_PATTERN
  = Some (globstar +> Class [AChar 100; AChar 68]
          +> lit_chain (str "ocker-")
               (Class [AChar 99; AChar 67]
                +> lit_chain (str "ompose")
                     (in_segment
                      +> lit_chain (str ".")
                           (Alt (lit_chain (str "yaml") Empty)
                                (lit_chain (str "yml") Empty) +> Empty)))).
Proof. vm_compute. reflexivity. Qed.

Lemma dockerfile_glob_parsed :
  Glob.parse DOCKERFILE_GLOB_PATTERN
  = Some (globstar
          +> Alt (in_segment +> lit_chain (str ".dockerfile") Empty)
                 (Class [AChar 100; AChar 68]
                  +> lit_chain (str "ocker")
                       (Class [AChar 102; AChar 70]
                        +> lit_chain (str "ile") Empty))
          +> Empty).
Proof. vm_compute. reflexivity. Qed.

(** A glob has to match the whole path. *)
Lemma whole_path r path :
  test {| source := Bol +> r +> Eol; ignoreCase := false |} path = true
  <-> Matches false r 0 path [].
Proof.
  rewrite test_spec. cbn [source ignoreCase]. split.
  - intros (pre & m & t & -> & H).
    apply Matches_seq in H as (s0 & m1 & -> & HB & H).
    apply Matches_bol in HB as [Hp ->]. destruct pre; [|discriminate].
    apply Matches_seq in H as (s1 & s2 & -> & H & HE).
    apply Matches_eol in HE as [-> ->]. cbn [app length Nat.add] in *.
    rewrite !app_nil_r in *. exact H.
  - intros H. exists [], path, []. split; [rewrite app_nil_r; reflexivity|].
    apply Matches_seq. exists [], path. split; [reflexivity|].
    split; [apply Matches_bol; auto|].
    apply Matches_seq. exists path, []. split; [rewrite app_nil_r; reflexivity|].
    split; [exact H|apply Matches_eol; auto].
Qed.

Lemma dockerfile_glob_paths path :
  match_glob DOCKERFILE_GLOB_PATTERN path = true <-> dockerfile_path path.
Proof.
  unfold match_glob, matches. rewrite dockerfile_glob_parsed, whole_path.
  unfold dockerfile_path, dockerfile_name. split.
  - intros H.
    apply Matches_seq in H as (dir & rest & -> & Hdir & H).
    apply Matches_globstar in Hdir.
    apply Matches_seq in H as (name & e & -> & H & He).
    apply Matches_empty in He as ->. rewrite app_nil_r.
    exists dir, name. split; [reflexivity|]. split; [exact Hdir|].
    apply Matches_alt in H as [H|H].
    + right. apply Matches_seq in H as (stem & ext & -> & Hstem & H).
      apply Matches_in_segment in Hstem.
      apply Matches_lit_chain in H as (s1 & s2 & -> & Hw & H).
      apply spells_exact in Hw as ->. apply Matches_empty in H as ->.
      exists stem. rewrite app_nil_r. auto.
    + left. apply Matches_seq in H as (d & rest & -> & Hd & H).
      apply Matches_class in Hd as (d0 & -> & Hd). apply class_pair in Hd.
      apply Matches_lit_chain in H as (s1 & s2 & -> & Hw & H).
      apply spells_exact in Hw as ->.
      apply Matches_seq in H as (f & rest & -> & Hf & H).
      apply Matches_class in Hf as (f0 & -> & Hf). apply class_pair in Hf.
      apply Matches_lit_chain in H as (s1 & s2 & -> & Hw & H).
      apply spells_exact in Hw as ->. apply Matches_empty in H as ->.
      exists d0, f0. auto.
  - intros (dir & name & -> & Hdir & Hname).
    apply Matches_seq. exists dir, name. split; [reflexivity|].
    split; [apply Matches_globstar; exact Hdir|].
    apply Matches_seq. exists name, []. split; [rewrite app_nil_r; reflexivity|].
    split; [|apply Matches_empty; reflexivity].
    apply Matches_alt. destruct Hname as [(d & f & -> & Hd & Hf)|(stem & -> & Hstem)].
    + right. apply Matches_seq. exists [d], (str "ocker" ++ f :: str "ile").
      split; [reflexivity|]. split.
      { apply Matches_class. exists d. split; [reflexivity|]. apply class_pair. exact Hd. }
      apply Matches_lit_chain. exists (str "ocker"), (f :: str "ile").
      split; [reflexivity|]. split; [apply spells_exact; reflexivity|].
      apply Matches_seq. exists [f], (str "ile"). split; [reflexivity|]. split.
      { apply Matches_class. exists f. split; [reflexivity|]. apply class_pair. exact Hf. }
      apply Matches_lit_chain. exists (str "ile"), []. split; [reflexivity|].
      split; [apply spells_exact; reflexivity|apply Matches_empty; reflexivity].
    + left. apply Matches_seq. exists stem, (str ".dockerfile").
      split; [reflexivity|]. split; [apply Matches_in_segment; exact Hstem|].
      apply Matches_lit_chain. exists (str ".dockerfile"), []. split; [reflexivity|].
      split; [apply spells_exact; reflexivity|apply Matches_empty; reflexivity].
Qed.

Lemma compose_glob_paths path :
  match_glob COMPOSE_FILE_GLOB_PATTERN path = true <-> compose_file_path path.
Proof.
  unfold match_glob, matches. rewrite compose_glob_parsed, whole_path.
  unfold compose_file_path, compose_file_name. split.
  - intros H.
    apply Matches_seq in H as (dir & rest & -> & Hdir & H).
    apply Matches_globstar in Hdir.
    exists dir, rest. split; [reflexivity|]. split; [exact Hdir|].
    apply Matches_seq in H as (d & rest' & -> & Hd & H).
    apply Matches_class in Hd as (d0 & -> & Hd). apply class_pair in Hd.
    apply Matches_lit_chain in H as (s1 & s2 & -> & Hw & H).
    apply spells_exact in Hw as ->.
    apply Matches_seq in H as (c & rest' & -> & Hc & H).
    apply Matches_class in Hc as (c0 & -> & Hc). apply class_pair in Hc.
    apply Matches_lit_chain in H as (s1 & s2 & -> & Hw & H).
    apply spells_exact in Hw as ->.
    apply Matches_seq in H as (stem & rest' & -> & Hstem & H).
    apply Matches_in_segment in Hstem.
    apply Matches_lit_chain in H as (s1 & s2 & -> & Hw & H).
    apply spells_exact in Hw as ->.
    apply Matches_seq in H as (ext & e & -> & H & He).
    apply Matches_empty in He as ->. rewrite app_nil_r.
    exists d0, c0, stem, ext. split; [reflexivity|]. repeat (split; [assumption|]).
    apply Matches_alt in H as [H|H];
      apply Matches_lit_chain in H as (s1 & s2 & -> & Hw & H);
      apply spells_exact in Hw as ->; apply Matches_empty in H as ->;
      rewrite app_nil_r; auto.
  - intros (dir & name & -> & Hdir & d & c & stem & ext & -> & Hd & Hc & Hstem & Hext).
    apply Matches_seq. eexists dir, _. split; [reflexivity|].
    split; [apply Matches_globstar; exact Hdir|].
    apply Matches_seq. eexists [d], _. split; [reflexivity|]. split.
    { apply Matches_class. exists d. split; [reflexivity|]. apply class_pair. exact Hd. }
    apply Matches_lit_chain. eexists (str "ocker-"), _.
    split; [reflexivity|]. split; [apply spells_exact; reflexivity|].
    apply Matches_seq. eexists [c], _. split; [reflexivity|]. split.
    { apply Matches_class. exists c. split; [reflexivity|]. apply class_pair. exact Hc. }
    apply Matches_lit_chain. eexists (str "ompose"), _.
    split; [reflexivity|]. split; [apply spells_exact; reflexivity|].
    apply Matches_seq. eexists stem, _. split; [reflexivity|].
    split; [apply Matches_in_segment; exact Hstem|].
    apply Matches_lit_chain. eexists (str "."), _.
    split; [reflexivity|]. split; [apply spells_exact; reflexivity|].
    apply Matches_seq. exists ext, []. split; [rewrite app_nil_r; reflexivity|].
    split; [|apply Matches_empty; reflexivity].
    apply Matches_alt. destruct Hext as [->| ->]; [left|right];
      apply Matches_lit_chain; eexists _, []; (split; [symmetry; apply app_nil_r|]);
      (split; [apply spells_exact; reflexivity|apply Matches_empty; reflexivity]).
Qed.

(** A path whose last segment is a file name of the glob matches. *)
Lemma directories_prefix dir : directories dir -> globstar_prefix dir.
Proof. apply (directories_globstar (length dir)). lia. Qed.

(** The filter of the Compose providers, field by field. *)
Lemma selects_yaml_mode doc :
  selects YAML_MODE_ID doc
  = jseqb (str "yaml") (languageId doc)
    && jseqb (str "file") (uriScheme doc)
    && match_glob COMPOSE_FILE_GLOB_PATTERN (fsPath doc).
Proof. reflexivity. Qed.

(** C8, as stated, fails: a path that matches the glob does not route
    the document by itself.  A document whose path is
    [/w/docker-compose.yml] and whose language is not [yaml] is not
    selected by the filter of the Compose providers. *)
Lemma compose_glob_is_not_the_route :
  ~ (forall doc : TextDocument,
       selects YAML_MODE_ID doc = true
       <-> match_glob COMPOSE_FILE_GLOB_PATTERN (fsPath doc) = true).
Proof.
  intros H.
  destruct (H {| languageId := str "plaintext"; uriScheme := str "file";
                 fsPath := str "/w/docker-compose.yml" |}) as [_ H'].
  assert (E : selects YAML_MODE_ID
                {| languageId := str "plaintext"; uriScheme := str "file";
                   fsPath := str "/w/docker-compose.yml" |} = true)
    by (apply H'; vm_compute; reflexivity).
  vm_compute in E. discriminate E.
Qed.

(** C8, amended: the Compose glob is the string of the specification and
    the pattern of the filter the Compose providers are registered under.
    That filter selects a document exactly when its language is [yaml],
    its scheme is [file] and its path matches the glob.  A path matches
    the glob exactly when it ends in a Compose file name
    ([docker-compose], with d and c in either case, followed by anything
    of the segment and the extension [.yaml] or [.yml]) and what is in
    front of the name is read by [**/]; every path whose last segment is
    such a name matches, and so does [/w/mydocker-compose.yml], since
    [**] may end inside a segment. *)
Theorem compose_glob_pattern :
  COMPOSE_FILE_GLOB_PATTERN = str "**/[dD]ocker-[cC]ompose*.{yaml,yml}"
  /\ (forall path, match_glob COMPOSE_FILE_GLOB_PATTERN path = true
                   <-> compose_file_path path)
  /\ pattern YAML_MODE_ID = Some COMPOSE_FILE_GLOB_PATTERN
  /\ (forall doc : TextDocument,
        selects YAML_MODE_ID doc
        = jseqb (str "yaml") (languageId doc)
          && jseqb (str "file") (uriScheme doc)
          && match_glob (str "**/[dD]ocker-[cC]ompose*.{yaml,yml}") (fsPath doc))
  /\ (forall doc : TextDocument,
        languageId doc = str "yaml" -> uriScheme doc = str "file" ->
        selects YAML_MODE_ID doc = match_glob COMPOSE_FILE_GLOB_PATTERN (fsPath doc))
  /\ map (match_glob COMPOSE_FILE_GLOB_PATTERN)
        [str "/w/docker-compose.yml"; str "docker-compose.yml";
         str "/w/Docker-Compose.debug.yaml"; str "/w/compose.yml";
         str "/w/docker-compose.json"; str "/w/mydocker-compose.yml";
         str "mydocker-compose.yml"; str "/w/docker-compose.yml/x"]
     = [true; true; true; false; false; true; false; false]
  /\ (forall doc : TextDocument,
        selects YAML_MODE_ID doc = true
        <-> languageId doc = str "yaml" /\ uriScheme doc = str "file"
            /\ compose_file_path (fsPath doc))
  /\ (forall dir name, directories dir -> compose_file_name name ->
        match_glob COMPOSE_FILE_GLOB_PATTERN (dir ++ name) = true).
Proof.
  split; [reflexivity|]. split; [exact compose_glob_paths|].
  split; [reflexivity|]. split; [reflexivity|].
  split; [|split; [vm_compute; reflexivity|split]].
  - intros doc Hl Hs. rewrite selects_yaml_mode, Hl, Hs, !jseqb_refl. reflexivity.
  - intros doc.
    rewrite selects_yaml_mode, !andb_true_iff, !jseqb_eq, compose_glob_paths.
    split; [intros [[<- <-] H]; auto | intros (-> & -> & H); auto].
  - intros dir name Hdir Hname. apply compose_glob_paths.
    exists dir, name. split; [reflexivity|].
    split; [apply directories_prefix; exact Hdir|exact Hname].
Qed.

(** C8 at a Compose file of the workspace. *)
Lemma compose_glob_pattern_witness :
  selects YAML_MODE_ID
    {| languageId := str "yaml"; uriScheme := str "file";
       fsPath := str "/w/docker-compose.yml" |} = true.
Proof.
  destruct compose_glob_pattern as (_ & _ & _ & _ & H & _).
  rewrite H; [vm_compute; reflexivity | reflexivity | reflexivity].
Defined.

(** C9, as stated, fails: the glob of the extension is not the string of
    the specification; it matches [DockerFile], which the specification's
    pattern does not match as written, and it does not match [DOCKERFILE],
    which the specification's pattern matches when letter case is
    ignored. *)
Lemma dockerfile_glob_is_not_spec_glob :
  DOCKERFILE_GLOB_PATTERN <> SPEC_DOCKERFILE_GLOB
  /\ match_glob DOCKERFILE_GLOB_PATTERN (str "/w/DockerFile") = true
  /\ match_glob SPEC_DOCKERFILE_GLOB (str "/w/DockerFile") = false
  /\ match_glob DOCKERFILE_GLOB_PATTERN (str "/w/DOCKERFILE") = false
  /\ matches true SPEC_DOCKERFILE_GLOB (str "/w/DOCKERFILE") = true.
Proof.
  split.
  - intros E. apply jseqb_eq in E. vm_compute in E. discriminate E.
  - repeat split; vm_compute; reflexivity.
Qed.

(** C9, amended: the Dockerfile glob is [**/{*.dockerfile,[dD]ocker[fF]ile}].
    A path matches it exactly when it ends in a Dockerfile name (text of
    one segment followed by [.dockerfile], or [dockerfile] with the
    letters d and f, and only them, in either case) and what is in front
    of the name is read by [**/]; every path whose last segment is such a
    name matches, and so do [/w/app.Dockerfile] and [/w/myDockerfile],
    since [**] may end inside a segment.  No document is routed by the
    glob: the Dockerfile providers are registered under a selector that
    has no pattern, and it selects a document exactly when its language
    is [dockerfile] and its scheme is [file], whatever its path. *)
Theorem dockerfile_glob_pattern :
  DOCKERFILE_GLOB_PATTERN = str "**/{*.dockerfile,[dD]ocker[fF]ile}"
  /\ (forall path, match_glob DOCKERFILE_GLOB_PATTERN path = true
                   <-> dockerfile_path path)
  /\ (forall dir name, directories dir -> dockerfile_name name ->
        match_glob DOCKERFILE_GLOB_PATTERN (dir ++ name) = true)
  /\ map (match_glob DOCKERFILE_GLOB_PATTERN)
        [str "/w/dockerfile"; str "/w/Dockerfile"; str "/w/dockerFile";
         str "/w/DockerFile"; str "Dockerfile"; str "/w/app.dockerfile";
         str "/w/DOCKERFILE"; str "/w/dockerfilE"; str "/w/app.Dockerfile";
         str "/w/Dockerfile.dev"; str "/w/myDockerfile"; str "myDockerfile";
         str "/w/app.DOCKERFILE"]
     = [true; true; true; true; true; true; false; false; true; false; true;
        false; false]
  /\ map pattern DOCUMENT_SELECTOR = [None]
  /\ (forall doc : TextDocument,
        existsb (fun f => selects f doc) DOCUMENT_SELECTOR
        = jseqb (str "dockerfile") (languageId doc)
          && jseqb (str "file") (uriScheme doc))
  /\ (forall doc : TextDocument,
        existsb (fun f => selects f doc) DOCUMENT_SELECTOR = true
        <-> languageId doc = str "dockerfile" /\ uriScheme doc = str "file").
Proof.
  assert (Hsel : forall doc : TextDocument,
            existsb (fun f => selects f doc) DOCUMENT_SELECTOR
            = jseqb (str "dockerfile") (languageId doc)
              && jseqb (str "file") (uriScheme doc)).
  { intros doc. simpl. unfold selects. simpl.
    rewrite orb_false_r, andb_true_r. reflexivity. }
  split; [reflexivity|]. split; [exact dockerfile_glob_paths|].
  split; [|split; [vm_compute; reflexivity|]].
  - intros dir name Hdir Hname. apply dockerfile_glob_paths.
    exists dir, name. split; [reflexivity|].
    split; [apply directories_prefix; exact Hdir|exact Hname].
  - split; [reflexivity|]. split; [exact Hsel|].
    intros doc. rewrite Hsel, andb_true_iff, !jseqb_eq.
    split; [intros [<- <-]; auto | intros [-> ->]; auto].
Qed.

End FileClassification.

(** ** The Dockerfile parser *)

Module DockerfileFacts.
Import Dockerfile.

(** C7: [FROM node:14 AS builder] yields one record, with instruction FROM
    and stage alias [builder]; [FROM node:14] yields one record, with
    instruction FROM and no stage alias. *)
Theorem stage_alias_extraction :
  parse (str "FROM node:14 AS builder")
  = [ {| instruction := str "FROM";
         argumentText := str " node:14 AS builder";
         stageAlias := Some (str "builder");
         lineNumber := 0;
         columnSpan := (0, 23) |} ]
  /\ parse (str "FROM node:14")
     = [ {| instruction := str "FROM";
            argumentText := str " node:14";
            stageAlias := None;
            lineNumber := 0;
            columnSpan := (0, 12) |} ].
Proof. split; vm_compute; reflexivity. Qed.

End DockerfileFacts.

(** ** The Compose parser builds well-formed trees *)

Module ComposeFacts.

Local Open Scope Z_scope.
Local Open Scope nat_scope.

Lemma pop_incl ind st x : In x (pop ind st) -> In x st.
Proof.
  induction st as [|[i n] st IH]; simpl; [tauto|].
  destruct (ind <=? i)%Z; [intros H; right; auto | auto].
Qed.

Lemma pop_keeps ind st i n :
  In (i, n) st -> (i < ind)%Z -> In (i, n) (pop ind st).
Proof.
  induction st as [|[i' n'] st IH]; simpl; [tauto|].
  intros [E|H] Hlt.
  - injection E as -> ->. destruct (Z.leb_spec ind i); [lia|]. left. reflexivity.
  - destruct (ind <=? i')%Z; [auto|]. right. exact H.
Qed.

Lemma pop_top ind st i n rest : pop ind st = (i, n) :: rest -> (i < ind)%Z.
Proof.
  induction st as [|[i' n'] st IH]; simpl; [discriminate|].
  destruct (Z.leb_spec ind i'); [exact IH|].
  intros [= -> -> ->]. assumption.
Qed.

Lemma pop_suffix ind st : exists k, pop ind st = drop k st.
Proof.
  induction st as [|[i n] st IH]; simpl; [exists 0; reflexivity|].
  destruct (ind <=? i)%Z.
  - destruct IH as (k & ->). exists (S k). reflexivity.
  - exists 0. reflexivity.
Qed.

Lemma pop_pop t ind st : (t <= ind)%Z -> pop t (pop ind st) = pop t st.
Proof.
  intros Hle. induction st as [|[i n] st IH]; simpl; [reflexivity|].
  destruct (Z.leb_spec ind i) as [Hi|Hi].
  - rewrite IH. destruct (Z.leb_spec t i); [reflexivity|lia].
  - reflexivity.
Qed.

Lemma alter_child_indents c (a : list KeyNode) : forall p,
  map indentLevel (alter (add_child c) p a) = map indentLevel a.
Proof.
  induction a as [|n a IH]; intros [|p]; simpl; try reflexivity.
  f_equal. apply IH.
Qed.

(** The arena after a step, read at an index. *)
Lemma arena_step_lookup (a : list KeyNode) p id node i n' :
  (alter (add_child id) p a ++ [node]) !! i = Some n' ->
  (exists n, a !! i = Some n /\
             n' = if decide (p = i) then add_child id n else n)
  \/ (i = length a /\ n' = node).
Proof.
  intros H. apply lookup_snoc_Some in H as [[Hlt H]|[Hi <-]].
  - left. rewrite list_lookup_alter in H. destruct (decide (p = i)) as [->|Hne].
    + destruct (a !! i) as [n|]; [|discriminate]. injection H as <-. eauto.
    + eauto.
  - right. rewrite length_alter in Hi. auto.
Qed.

Lemma arena_step_old (a : list KeyNode) p id node i n :
  a !! i = Some n ->
  (alter (add_child id) p a ++ [node]) !! i
  = Some (if decide (p = i) then add_child id n else n).
Proof.
  intros H. rewrite lookup_app_l
    by (rewrite length_alter; eapply lookup_lt_Some; eauto).
  rewrite list_lookup_alter. destruct (decide (p = i)) as [->|Hne].
  - rewrite H. reflexivity.
  - exact H.
Qed.

Lemma arena_step_new (a : list KeyNode) p id node :
  (alter (add_child id) p a ++ [node]) !! length a = Some node.
Proof.
  rewrite lookup_app_r by (rewrite length_alter; lia).
  rewrite length_alter, Nat.sub_diag. reflexivity.
Qed.

Lemma made_from_line_more done l n : made_from_line done n -> made_from_line (done ++ [l]) n.
Proof.
  intros (l0 & li & H & ?). exists l0, li. split; [|assumption].
  rewrite lookup_app_l by (eapply lookup_lt_Some; eauto). exact H.
Qed.

Lemma made_from_line_child done id n :
  made_from_line done n -> made_from_line done (add_child id n).
Proof. intros H. exact H. Qed.

Lemma after_step_fields p (i id : nat) (n : KeyNode) :
  let n' := if decide (p = i) then add_child id n else n in
  keyPath n' = keyPath n /\ key n' = key n /\ kind n' = kind n
  /\ indentLevel n' = indentLevel n /\ lineNumber n' = lineNumber n
  /\ columnSpan n' = columnSpan n /\ parent n' = parent n
  /\ (forall c, In c (children n) -> In c (children n')).
Proof.
  simpl. destruct (decide (p = i)); simpl; repeat split; auto.
  intros c Hc. apply in_or_app. auto.
Qed.

Lemma step_inv done st l :
  Inv done st -> Inv (done ++ [l]) (step st (length done) l).
Proof.
  intros I. unfold step. destruct (classify l) as [li|] eqn:Hc.
  2: { destruct I. constructor; auto.
       - intros j e H. destruct (inv_index0 j e H) as (? & ? & ?).
         rewrite length_app. simpl. split; [auto|]. split; [lia|auto].
       - intros i n H Hi. apply made_from_line_more. eauto.
       - rewrite omap_app. simpl. rewrite Hc. simpl. rewrite app_nil_r. auto.
       - rewrite omap_app. simpl. rewrite Hc. simpl. rewrite app_nil_r. auto. }
  set (ind := Z.of_nat (l_indent li)).
  set (id := length (arena st)).
  assert (Hbot : In ((-1)%Z, 0) (pop ind (stack st))).
  { apply pop_keeps; [apply I | unfold ind; lia]. }
  destruct (pop ind (stack st)) as [|[pi p] rest] eqn:Hpop; [destruct Hbot|].
  assert (Hpi : (pi < ind)%Z) by (eapply pop_top; eauto).
  assert (Hp : exists np, arena st !! p = Some np /\ indentLevel np = pi).
  { apply I. apply (pop_incl ind). rewrite Hpop. left. reflexivity. }
  destruct Hp as (np & Hp & Hnp).
  simpl top.
  set (node := {| keyPath := path_of (arena st) p ++ [l_key li];
                  key := l_key li; kind := l_kind li; indentLevel := ind;
                  lineNumber := length done; columnSpan := l_span li;
                  children := []; parent := Some p |}).
  constructor; cbn [arena stack entries].
  - destruct (inv_root _ _ I) as (r & H0 & ? & ? & ?).
    rewrite (arena_step_old _ p id node _ _ H0).
    destruct (after_step_fields p 0 id r) as (? & ? & ? & ? & ? & ? & ? & ?).
    eexists. split; [reflexivity|]. repeat split; congruence.
  - intros i n' H Hi. apply arena_step_lookup in H as [(n & Hn & ->)|[-> ->]].
    + destruct (inv_parent _ _ I _ _ Hn Hi) as (q & nq & Hq1 & Hq2 & Hq3 & Hq4 & Hq5 & Hq6).
      destruct (after_step_fields p i id n) as (? & ? & ? & ? & ? & ? & ? & ?).
      destruct (after_step_fields p q id nq) as (? & ? & ? & ? & ? & ? & ? & ?).
      exists q. eexists. rewrite (arena_step_old _ p id node _ _ Hq3).
      split; [congruence|]. split; [assumption|]. split; [reflexivity|].
      split; [congruence|]. split; [congruence|]. auto.
    + exists p, (add_child id np). rewrite (arena_step_old _ p id node _ _ Hp).
      rewrite decide_True by reflexivity.
      split; [reflexivity|]. split; [eapply lookup_lt_Some; eauto|].
      split; [reflexivity|]. split; [simpl; lia|]. split.
      * simpl. unfold path_of. rewrite Hp. reflexivity.
      * simpl. apply in_or_app. right. left. reflexivity.
  - intros q nq' c H Hc'. apply arena_step_lookup in H as [(nq & Hq & ->)|[-> ->]].
    2: { destruct Hc'. }
    assert (Hold : In c (children nq) ->
      exists nc, (alter (add_child id) p (arena st) ++ [node]) !! c = Some nc
                 /\ parent nc = Some q).
    { intros Hin. destruct (inv_children _ _ I _ _ _ Hq Hin) as (nc & Hnc & Hpar).
      destruct (after_step_fields p c id nc) as (? & ? & ? & ? & ? & ? & ? & ?).
      eexists. rewrite (arena_step_old _ p id node _ _ Hnc).
      split; [reflexivity|congruence]. }
    destruct (decide (p = q)) as [->|Hne]; [|auto].
    simpl in Hc'. apply in_app_or in Hc' as [Hin|[<-|[]]]; [auto|].
    exists node. split; [apply arena_step_new|reflexivity].
  - intros i0 id0 [E|Hin].
    + injection E as <- <-. exists node. split; [apply arena_step_new|reflexivity].
    + assert (Hin' : In (i0, id0) (stack st)).
      { apply (pop_incl ind). rewrite Hpop. exact Hin. }
      destruct (inv_stack _ _ I _ _ Hin') as (n & Hn & Hind).
      destruct (after_step_fields p id0 id n) as (? & ? & ? & ? & ? & ? & ? & ?).
      eexists. rewrite (arena_step_old _ p id node _ _ Hn).
      split; [reflexivity|congruence].
  - right. exact Hbot.
  - rewrite !length_app, length_alter. simpl. rewrite (inv_length _ _ I). lia.
  - intros j e H. apply lookup_snoc_Some in H as [[Hlt He]|[-> <-]].
    + destruct (inv_index _ _ I _ _ He) as (E1 & E2 & n & Hn & E3 & E4).
      destruct (after_step_fields p (S j) id n) as (? & ? & ? & ? & ? & ? & ? & ?).
      split; [assumption|]. split; [rewrite length_app; simpl; lia|].
      eexists. rewrite (arena_step_old _ p id node _ _ Hn).
      split; [reflexivity|]. split; congruence.
    + cbn [entryNode entryLine entrySpan]. split; [apply (inv_length _ _ I)|].
      split; [rewrite length_app; simpl; lia|].
      exists node. rewrite <- (inv_length _ _ I).
      split; [apply arena_step_new|]. split; reflexivity.
  - intros j1 j2 e1 e2 Hlt H1 H2.
    apply lookup_snoc_Some in H1 as [[Hl1 H1]|[-> <-]];
      apply lookup_snoc_Some in H2 as [[Hl2 H2]|[-> <-]].
    + exact (inv_sorted _ _ I _ _ _ _ Hlt H1 H2).
    + destruct (inv_index _ _ I _ _ H1) as (_ & E2 & _). simpl. exact E2.
    + lia.
    + lia.
  - intros i n' H Hi. apply arena_step_lookup in H as [(n & Hn & ->)|[-> ->]].
    + apply made_from_line_more.
      destruct (decide (p = i)); [apply made_from_line_child|]; eapply (inv_lines _ _ I); eauto.
    + exists l, li. split.
      * simpl. rewrite lookup_app_r by lia. rewrite Nat.sub_diag. reflexivity.
      * repeat split; auto.
  - rewrite length_app, length_alter, omap_app, length_app. simpl.
    rewrite Hc. simpl. rewrite (inv_count _ _ I). lia.
  - intros r H. destruct (arena st !! 0) as [r0|] eqn:H0.
    + rewrite (arena_step_old _ p id node _ _ H0) in H. injection H as <-.
      destruct (after_step_fields p 0 id r0) as (_ & -> & _).
      apply (inv_root_key _ _ I). exact H0.
    + destruct (inv_root _ _ I) as (r0 & Hr0 & _). congruence.
  - intros j m t Hj Htop.
    assert (E : pop t ((ind, id) :: (pi, p) :: rest)
                = if (t <=? ind)%Z then pop t (pop ind (stack st))
                  else (ind, id) :: (pi, p) :: rest)
      by (rewrite Hpop; reflexivity).
    rewrite E in Htop. clear E.
    destruct (Z.leb_spec t ind) as [Hle|Hgt].
    + rewrite (pop_pop _ _ _ Hle) in Htop.
      apply arena_step_lookup in Hj as [(m0 & Hm0 & ->)|[-> ->]].
      * destruct (after_step_fields p j id m0) as (_ & _ & _ & -> & _).
        apply (inv_open _ _ I j m0 t); assumption.
      * exact Hle.
    + simpl in Htop. apply lookup_lt_Some in Hj.
      rewrite length_app, length_alter in Hj. simpl in Hj. unfold id in Htop. lia.
  - intros i n' q Hi Hpar j m Hj Hm.
    assert (Hjold : exists m0, arena st !! j = Some m0
                               /\ indentLevel m = indentLevel m0).
    { apply arena_step_lookup in Hm as [(m0 & Hm0 & ->)|[-> ->]].
      - destruct (after_step_fields p j id m0) as (_ & _ & _ & E & _). eauto.
      - apply lookup_lt_Some in Hi.
        rewrite length_app, length_alter in Hi. simpl in Hi. lia. }
    destruct Hjold as (m0 & Hm0 & ->).
    apply arena_step_lookup in Hi as [(n & Hn & ->)|[-> ->]].
    + destruct (after_step_fields p i id n) as (_ & _ & _ & E1 & _ & _ & E2 & _).
      rewrite E1. rewrite E2 in Hpar.
      apply (inv_nearest _ _ I i n q Hn Hpar j m0); assumption.
    + simpl in Hpar. injection Hpar as <-. simpl.
      apply (inv_open _ _ I j m0 ind Hm0). rewrite Hpop. simpl. lia.
  - intros q nq' k1 k2 c1 c2 Hq H1 H2 Hlt.
    apply arena_step_lookup in Hq as [(nq & Hq & ->)|[-> ->]].
    2: { destruct k1; discriminate. }
    destruct (decide (p = q)) as [->|Hne].
    + simpl in H1, H2.
      apply lookup_snoc_Some in H1 as [[Hl1 H1]|[-> <-]];
        apply lookup_snoc_Some in H2 as [[Hl2 H2]|[-> <-]]; try lia.
      * exact (inv_child_order _ _ I _ _ _ _ _ _ Hq H1 H2 Hlt).
      * assert (Hin : In c1 (children nq)).
        { apply list_elem_of_In. eapply list_elem_of_lookup_2. exact H1. }
        destruct (inv_children _ _ I _ _ _ Hq Hin) as (nc & Hnc & _).
        apply lookup_lt_Some in Hnc. exact Hnc.
    + exact (inv_child_order _ _ I _ _ _ _ _ _ Hq H1 H2 Hlt).
  - rewrite omap_app, !map_app, alter_child_indents, (inv_indents _ _ I).
    simpl. rewrite Hc. reflexivity.
  - exists ind, ((pi, p) :: rest). rewrite length_app, length_alter. simpl.
    unfold id. f_equal. f_equal. lia.
  - intros k i0 id0 Hk. destruct k as [|k]; simpl in Hk.
    + injection Hk as <- <-. exists node.
      split; [apply arena_step_new|]. split; reflexivity.
    + destruct (pop_suffix ind (stack st)) as (k0 & Hk0).
      rewrite Hpop in Hk0.
      assert (Hlk : forall j, ((pi, p) :: rest) !! j = stack st !! (k0 + j)).
      { intros j. rewrite Hk0. apply lookup_drop. }
      rewrite Hlk in Hk.
      destruct (inv_chain _ _ I _ _ _ Hk) as (n & Hn & Hind & Hpar).
      destruct (after_step_fields p id0 id n) as (_ & _ & _ & E1 & _ & _ & E2 & _).
      eexists. rewrite (arena_step_old _ p id node _ _ Hn).
      split; [reflexivity|]. split; [congruence|].
      rewrite E2, Hpar. change (((ind, id) :: (pi, p) :: rest) !! S (S k))
        with (((pi, p) :: rest) !! S k).
      rewrite Hlk. f_equal. f_equal. lia.
Qed.

Lemma init_inv : Inv [] init.
Proof.
  constructor; simpl.
  - exists root. repeat split.
  - intros [|i] n H Hi; [congruence|]. destruct i; discriminate.
  - intros [|p] np c H Hc.
    + injection H as <-. destruct Hc.
    + destruct p; discriminate.
  - intros ind id [E|[]]. injection E as <- <-. exists root. split; reflexivity.
  - left. reflexivity.
  - reflexivity.
  - intros j e H. destruct j; discriminate.
  - intros j1 j2 e1 e2 _ H. destruct j1; discriminate.
  - intros [|i] n H Hi; [congruence|]. destruct i; discriminate.
  - reflexivity.
  - intros r [= <-]. reflexivity.
  - intros [|j] m t H Htop; [lia|]. destruct j; discriminate.
  - intros [|i] n p H Hp; [|destruct i; discriminate].
    injection H as <-. discriminate.
  - intros [|p] np k1 k2 c1 c2 H H1; [|destruct p; discriminate].
    injection H as <-. destruct k1; discriminate.
  - reflexivity.
  - exists (-1)%Z, []. reflexivity.
  - intros [|k] ind id H; [|destruct k; discriminate].
    injection H as <- <-. exists root. repeat split.
Qed.

Lemma run_inv ls : forall done st,
  Inv done st -> Inv (done ++ ls) (run st (length done) ls).
Proof.
  induction ls as [|l ls IH]; intros done st I; simpl.
  - rewrite app_nil_r. exact I.
  - replace (done ++ l :: ls) with ((done ++ [l]) ++ ls)
      by (rewrite <- app_assoc; reflexivity).
    replace (S (length done)) with (length (done ++ [l]))
      by (rewrite length_app; simpl; lia).
    apply IH, step_inv, I.
Qed.

Lemma parse_inv text : Inv (lines text) (run init 0 (lines text)).
Proof. apply (run_inv (lines text) [] init init_inv). Qed.

Lemma parseCompose_well_formed text : WellFormed (parseCompose text).
Proof.
  pose proof (parse_inv text) as I. unfold parseCompose.
  constructor; cbn [nodes index].
  - apply I.
  - apply I.
  - apply I.
  - apply I.
  - intros j e H. destruct (inv_index _ _ I _ _ H) as (? & _ & ?). auto.
  - apply I.
  - apply I.
  - apply I.
  - apply I.
Qed.





(** The tree of [uneven_text]: [b] and [c] are the children of [a]. *)
Lemma uneven_tree :
  map (fun n => (key n, indentLevel n, parent n, children n))
    (nodes (parseCompose uneven_text))
  = [ ([], (-1)%Z, None, [1]);
      (str "a", 0%Z, Some 0, [2; 3]);
      (str "b", 4%Z, Some 1, []);
      (str "c", 2%Z, Some 1, []) ].
Proof. vm_compute. reflexivity. Qed.




(** The tree of the example text: [services], [web] under it and [image]
    under [web]. *)
Lemma example_tree :
  map (fun n => (keyPath n, indentLevel n, parent n, children n))
    (nodes (parseCompose example_text))
  = [ ([], (-1)%Z, None, [1]);
      ([str "services"], 0%Z, Some 0, [2]);
      ([str "services"; str "web"], 2%Z, Some 1, [3]);
      ([str "services"; str "web"; str "image"], 4%Z, Some 2, []) ].
Proof. vm_compute. reflexivity. Qed.

(** *** The resolver *)

Section Resolve.

Variable idx : list IndexEntry.
Variables line col : nat.

Hypothesis sorted :
  forall j1 j2 e1 e2, j1 < j2 -> idx !! j1 = Some e1 -> idx !! j2 = Some e2 ->
    entryLine e1 < entryLine e2.

Lemma starts_before_line e :
  starts_before e line col = true -> entryLine e <= line.
Proof.
  unfold starts_before. intros H. apply orb_true_iff in H as [H|H].
  - apply Nat.ltb_lt in H. lia.
  - apply andb_true_iff in H as [H _]. apply Nat.eqb_eq in H. lia.
Qed.

Lemma starts_before_earlier j1 j2 e1 e2 :
  j1 < j2 -> idx !! j1 = Some e1 -> idx !! j2 = Some e2 ->
  starts_before e2 line col = true -> starts_before e1 line col = true.
Proof.
  intros Hlt H1 H2 Hb. apply starts_before_line in Hb.
  pose proof (sorted _ _ _ _ Hlt H1 H2).
  unfold starts_before. apply orb_true_iff. left. apply Nat.ltb_lt. lia.
Qed.

Lemma upper_bound_spec fuel : forall lo hi,
  lo <= hi <= length idx -> hi - lo <= fuel ->
  (forall j e, j < lo -> idx !! j = Some e -> starts_before e line col = true) ->
  (forall j e, hi <= j -> idx !! j = Some e -> starts_before e line col = false) ->
  let r := upper_bound fuel idx lo hi line col in
  lo <= r <= hi
  /\ (forall j e, j < r -> idx !! j = Some e -> starts_before e line col = true)
  /\ (forall j e, r <= j -> idx !! j = Some e -> starts_before e line col = false).
Proof.
  induction fuel as [|f IH]; intros lo hi Hb Hf Hlo Hhi; cbn [upper_bound].
  - split; [lia|]. split; [exact Hlo|].
    intros j e Hj. apply Hhi. lia.
  - destruct (Nat.ltb_spec lo hi) as [Hlt|Hge].
    2: { split; [lia|]. split; [exact Hlo|]. intros j e Hj. apply Hhi. lia. }
    assert (Hmid : lo <= (lo + hi) / 2 < hi).
    { split.
      - apply Nat.div_le_lower_bound; lia.
      - apply Nat.Div0.div_lt_upper_bound; lia. }
    set (mid := (lo + hi) / 2) in *.
    destruct (lookup_lt_is_Some_2 idx mid) as [e He]; [lia|].
    rewrite He. destruct (starts_before e line col) eqn:Hsb.
    + destruct (IH (S mid) hi) as (H1 & H2 & H3); try lia.
      * intros j e' Hj He'. destruct (Nat.eq_dec j mid) as [->|Hne].
        -- congruence.
        -- apply (starts_before_earlier j mid e' e); auto. lia.
      * exact Hhi.
      * split; [lia|]. split; assumption.
    + destruct (IH lo mid) as (H1 & H2 & H3); try lia.
      * exact Hlo.
      * intros j e' Hj He'. destruct (Nat.eq_dec j mid) as [->|Hne].
        -- congruence.
        -- destruct (starts_before e' line col) eqn:Hsb'; [|reflexivity].
           rewrite (starts_before_earlier mid j e e') in Hsb; auto. lia.
      * split; [lia|]. split; assumption.
Qed.

End Resolve.

Lemma starts_before_node e n line col :
  lineNumber n = entryLine e -> columnSpan n = entrySpan e ->
  starts_before e line col = true <-> node_starts_before n line col.
Proof.
  intros E1 E2. unfold starts_before, node_starts_before.
  rewrite orb_true_iff, andb_true_iff, Nat.ltb_lt, Nat.eqb_eq, Nat.leb_le, E1, E2.
  reflexivity.
Qed.

Section ResolveWellFormed.

Variable pr : ParseResult.
Hypothesis wf : WellFormed pr.
Variables line col : nat.

Let bound : nat :=
  upper_bound (length (index pr)) (index pr) 0 (length (index pr)) line col.

Lemma bound_spec :
  bound <= length (index pr)
  /\ (forall j e, j < bound -> index pr !! j = Some e ->
        starts_before e line col = true)
  /\ (forall j e, bound <= j -> index pr !! j = Some e ->
        starts_before e line col = false).
Proof.
  destruct (upper_bound_spec (index pr) line col (wf_sorted _ wf)
              (length (index pr)) 0 (length (index pr))) as (H1 & H2 & H3).
  - lia.
  - lia.
  - intros j e Hj. lia.
  - intros j e Hj He. apply lookup_lt_Some in He. lia.
  - split; [apply H1|]. split; assumption.
Qed.

(** The entry of rank [j] is the entry of node [j + 1]: the resolver
    returns the number of entries at or before the position. *)
Lemma resolve_bound : resolve pr line col = bound.
Proof.
  unfold resolve. fold bound. destruct bound as [|k] eqn:E; [reflexivity|].
  destruct bound_spec as (Hle & _). rewrite E in Hle.
  destruct (lookup_lt_is_Some_2 (index pr) k) as [e He]; [lia|].
  rewrite He. apply (wf_index _ wf _ _ He).
Qed.

Lemma resolve_is_node : is_Some (nodes pr !! resolve pr line col).
Proof.
  apply lookup_lt_is_Some_2. rewrite resolve_bound, (wf_index_length _ wf).
  destruct bound_spec as (Hle & _). lia.
Qed.

Lemma resolve_last_before i n :
  nodes pr !! i = Some n -> i <> 0 ->
  node_starts_before n line col <-> i <= resolve pr line col.
Proof.
  intros Hn Hi. rewrite resolve_bound.
  destruct i as [|j]; [congruence|].
  assert (Hj : j < length (index pr)).
  { apply lookup_lt_Some in Hn. rewrite (wf_index_length _ wf) in Hn. lia. }
  destruct (lookup_lt_is_Some_2 (index pr) j Hj) as [e He].
  destruct (wf_index _ wf _ _ He) as (_ & n' & Hn' & E1 & E2).
  assert (n' = n) by congruence. subst n'.
  rewrite <- (starts_before_node e n line col E1 E2).
  destruct bound_spec as (_ & Hlow & Hhigh). split.
  - intros Hsb. destruct (Nat.le_gt_cases bound j) as [Hge|Hlt]; [|lia].
    rewrite (Hhigh _ _ Hge He) in Hsb. discriminate.
  - intros Hle. apply (Hlow j e); [lia|assumption].
Qed.

Lemma node_lines_increase i j n m :
  nodes pr !! i = Some n -> nodes pr !! j = Some m -> i <> 0 -> i < j ->
  lineNumber n < lineNumber m.
Proof.
  intros Hn Hm Hi Hlt. destruct i as [|i']; [congruence|]. destruct j as [|j']; [lia|].
  assert (Hi' : i' < length (index pr)).
  { apply lookup_lt_Some in Hn. rewrite (wf_index_length _ wf) in Hn. lia. }
  assert (Hj' : j' < length (index pr)).
  { apply lookup_lt_Some in Hm. rewrite (wf_index_length _ wf) in Hm. lia. }
  destruct (lookup_lt_is_Some_2 (index pr) i' Hi') as [e1 He1].
  destruct (lookup_lt_is_Some_2 (index pr) j' Hj') as [e2 He2].
  destruct (wf_index _ wf _ _ He1) as (_ & n' & Hn' & E1 & _).
  destruct (wf_index _ wf _ _ He2) as (_ & m' & Hm' & F1 & _).
  assert (n' = n) by congruence. assert (m' = m) by congruence. subst.
  rewrite E1, F1. apply (wf_sorted _ wf i' j'); auto. lia.
Qed.

Lemma resolve_containing i n :
  nodes pr !! i = Some n -> i <> 0 -> span_contains n line col ->
  resolve pr line col = i.
Proof.
  intros Hn Hi [Hl [Hc _]].
  assert (Hle : i <= resolve pr line col).
  { apply (resolve_last_before i n Hn Hi). right. auto. }
  destruct (Nat.eq_dec (resolve pr line col) i) as [E|Hne]; [exact E|].
  destruct resolve_is_node as [m Hm].
  assert (Hr : resolve pr line col <> 0) by lia.
  assert (Hb : node_starts_before m line col).
  { apply (resolve_last_before _ m Hm Hr). lia. }
  pose proof (node_lines_increase i (resolve pr line col) n m Hn Hm Hi) as Hinc.
  destruct Hb as [Hb|[Hb _]]; lia.
Qed.

(** The node of the line of the position, when it starts at or before the
    column. *)
Lemma resolve_on_line i n :
  nodes pr !! i = Some n -> i <> 0 -> lineNumber n = line ->
  fst (columnSpan n) <= col -> resolve pr line col = i.
Proof.
  intros Hn Hi Hl Hc.
  assert (Hle : i <= resolve pr line col).
  { apply (resolve_last_before i n Hn Hi). right. auto. }
  destruct (Nat.eq_dec (resolve pr line col) i) as [E|Hne]; [exact E|].
  destruct resolve_is_node as [m Hm].
  assert (Hr : resolve pr line col <> 0) by lia.
  assert (Hb : node_starts_before m line col).
  { apply (resolve_last_before _ m Hm Hr). lia. }
  pose proof (node_lines_increase i (resolve pr line col) n m Hn Hm Hi) as Hinc.
  destruct Hb as [Hb|[Hb _]]; lia.
Qed.

Lemma resolve_root :
  (forall i n, nodes pr !! i = Some n -> i <> 0 -> ~ node_starts_before n line col) ->
  resolve pr line col = 0.
Proof.
  intros Hnone. destruct (Nat.eq_dec (resolve pr line col) 0) as [E|Hne]; [exact E|].
  destruct resolve_is_node as [m Hm]. exfalso.
  apply (Hnone _ m Hm Hne). apply (resolve_last_before _ m Hm Hne). lia.
Qed.

End ResolveWellFormed.

(** C3: [resolve] returns a node for every position.  The node is the last
    one, in the order of the document, that starts at or before the
    position: the node whose span holds the position when there is one,
    and the root when the document has no node or the position comes
    before every node. *)
Theorem resolve_never_fails (text : jsstring) (line col : nat) :
  let pr := parseCompose text in
  let r := resolve pr line col in
  is_Some (nodes pr !! r)
  /\ (forall i n, nodes pr !! i = Some n -> i <> 0 ->
        (node_starts_before n line col <-> i <= r))
  /\ (forall i n, nodes pr !! i = Some n -> i <> 0 ->
        span_contains n line col -> r = i)
  /\ ((forall i n, nodes pr !! i = Some n -> i <> 0 ->
         ~ node_starts_before n line col) -> r = 0)
  /\ resolve (parseCompose []) line col = 0.
Proof.
  intros pr r. pose proof (parseCompose_well_formed text) as wf. fold pr in wf.
  split; [apply resolve_is_node; exact wf|].
  split; [apply resolve_last_before; exact wf|].
  split; [intros i n Hn Hi Hs; apply (resolve_containing pr wf line col i n); auto|].
  split; [apply resolve_root; exact wf|].
  reflexivity.
Qed.

(** C3 at the example text: the position of the value of [image] is in
    the span of the node of [image], which [resolve] returns. *)
Lemma resolve_never_fails_witness :
  exists n, nodes (parseCompose example_text) !! 3 = Some n
            /\ span_contains n 2 11
            /\ resolve (parseCompose example_text) 2 11 = 3.
Proof.
  pose proof (resolve_never_fails example_text 2 11) as W. cbv zeta in W.
  destruct W as (_ & _ & H & _).
  eexists. split; [vm_compute; reflexivity|].
  assert (S : span_contains
    {| keyPath := [str "services"; str "web"; str "image"];
       key := str "image"; kind := scalar; indentLevel := 4%Z;
       lineNumber := 2; columnSpan := (4, 12); children := [];
       parent := Some 2 |} 2 11).
  { split; [reflexivity | simpl; lia]. }
  split; [exact S|].
  eapply (H 3); [vm_compute; reflexivity | discriminate | exact S].
Defined.

(** *** Completion *)

Lemma mentions_In labels l : mentions labels l = true <-> In l labels.
Proof.
  unfold mentions. rewrite existsb_exists. split.
  - intros (x & Hx & E). apply jseqb_eq in E. subst. exact Hx.
  - intros H. exists l. split; [exact H|apply jseqb_refl].
Qed.

Lemma complete_labels reg text line col declared :
  map label (complete reg text line col declared)
  = map fst
      (List.filter (fun c => negb (mentions
                 (siblingLabels (parseCompose text)
                    (enclosing (parseCompose text) line col)) (fst c)))
         (candidatesAt reg
            (path_of (nodes (parseCompose text))
               (enclosing (parseCompose text) line col))
            (match declared with Some v => v | None => VAll end))).
Proof. unfold complete. rewrite map_map. reflexivity. Qed.

(** The labels under a node are the keys of the nodes whose parent it
    is. *)
Lemma siblingLabels_spec pr e l :
  WellFormed pr ->
  In l (siblingLabels pr e)
  <-> exists i n, nodes pr !! i = Some n /\ parent n = Some e /\ key n = l.
Proof.
  intros wf. unfold siblingLabels. split.
  - destruct (nodes pr !! e) as [ne|] eqn:He; [|intros []].
    intros H. apply in_map_iff in H as (c & Hk & Hc).
    destruct (wf_children _ wf _ _ _ He Hc) as (nc & Hnc & Hp).
    exists c, nc. unfold key_of in Hk. rewrite Hnc in Hk. auto.
  - intros (i & n & Hn & Hp & Hk).
    assert (Hi : i <> 0).
    { intros ->. destruct (wf_root _ wf) as (r & Hr & Hpr & _). congruence. }
    destruct (wf_parent _ wf _ _ Hn Hi) as (p & np & Hp' & _ & Hnp & _ & _ & Hin).
    assert (p = e) by congruence. subst p. rewrite Hnp.
    apply in_map_iff. exists i. split; [|exact Hin].
    unfold key_of. rewrite Hn. exact Hk.
Qed.

(** What is offered at a position, from the enclosing node, the labels
    under it and its key path. *)
Lemma complete_at reg text line col declared e used path :
  enclosing (parseCompose text) line col = e ->
  siblingLabels (parseCompose text) e = used ->
  path_of (nodes (parseCompose text)) e = path ->
  forall l,
    In l (map label (complete reg text line col declared))
    <-> In l (map fst (candidatesAt reg path
                         (match declared with Some v => v | None => VAll end)))
        /\ ~ In l used.
Proof.
  intros <- <- <- l. rewrite complete_labels, !in_map_iff. split.
  - intros (c & <- & Hc). apply filter_In in Hc as [Hc Hm]. split; [eauto|].
    intros Hin. apply mentions_In in Hin. rewrite Hin in Hm. discriminate.
  - intros [(c & <- & Hc) Hn]. exists c. split; [reflexivity|].
    apply filter_In. split; [exact Hc|].
    destruct (mentions _ (fst c)) eqn:Hm; [|reflexivity].
    apply mentions_In in Hm. contradiction.
Qed.

Lemma on_key_spec n line col :
  on_key n line col = true <-> cursor_on_key n line col.
Proof.
  unfold on_key, cursor_on_key.
  rewrite !andb_true_iff, Nat.eqb_eq, Nat.leb_le, Nat.ltb_lt. tauto.
Qed.

Lemma step_keeps st k l i n :
  arena st !! i = Some n ->
  exists m, arena (step st k l) !! i = Some m /\ same_key_node n m.
Proof.
  intros Hn. unfold step. destruct (classify l) as [li|].
  - cbn [arena]. erewrite arena_step_old by exact Hn.
    eexists. split; [reflexivity|].
    destruct (after_step_fields (top (pop (Z.of_nat (l_indent li)) (stack st)))
                i (length (arena st)) n) as (? & ? & ? & ? & ? & ? & ? & ?).
    repeat split; assumption.
  - exists n. split; [exact Hn|]. repeat split.
Qed.

Lemma step_length st k l :
  length (arena (step st k l)) = length (arena st)
  \/ (length (arena (step st k l)) = S (length (arena st))
      /\ exists m, arena (step st k l) !! length (arena st) = Some m
                   /\ lineNumber m = k).
Proof.
  unfold step. destruct (classify l) as [li|]; [right|left; reflexivity].
  cbn [arena]. rewrite length_app, length_alter. split; [simpl; lia|].
  eexists. split; [apply arena_step_new|reflexivity].
Qed.

(** The nodes made so far stay as they are, but for their children. *)
Lemma run_keeps ls : forall st k i n,
  arena st !! i = Some n ->
  exists m, arena (run st k ls) !! i = Some m /\ same_key_node n m.
Proof.
  induction ls as [|l ls IH]; intros st k i n Hn; simpl.
  - exists n. split; [exact Hn|]. repeat split.
  - destruct (step_keeps st k l i n Hn) as (m & Hm & E).
    destruct (IH _ (S k) _ _ Hm) as (m' & Hm' & E').
    exists m'. split; [exact Hm'|].
    destruct E as (? & ? & ? & ? & ? & ?), E' as (? & ? & ? & ? & ? & ?).
    repeat split; congruence.
Qed.

(** The nodes made from line [k] on are on line [k] or later. *)
Lemma run_later ls : forall st k i m,
  arena (run st k ls) !! i = Some m -> length (arena st) <= i ->
  k <= lineNumber m.
Proof.
  induction ls as [|l ls IH]; intros st k i m Hm Hi; simpl in Hm.
  - apply lookup_lt_Some in Hm. lia.
  - destruct (step_length st k l) as [E|(E & n & Hn & Hl)].
    + assert (H : S k <= lineNumber m); [|lia].
      apply (IH _ _ _ _ Hm). rewrite E. exact Hi.
    + destruct (Nat.eq_dec i (length (arena st))) as [->|Hne].
      * destruct (run_keeps ls _ (S k) _ _ Hn) as (m' & Hm' & E').
        assert (m' = m) by congruence. subst m'.
        destruct E' as (_ & _ & _ & -> & _). lia.
      * assert (H : S k <= lineNumber m); [|lia].
        apply (IH _ _ _ _ Hm). rewrite E. lia.
Qed.

Lemma run_app a : forall st k b,
  run st k (a ++ b) = run (run st k a) (k + length a) b.
Proof.
  induction a as [|l a IH]; intros st k b; simpl.
  - rewrite Nat.add_0_r. reflexivity.
  - rewrite IH. f_equal. lia.
Qed.

(** Going up from the top of the stack of open nodes is popping the
    stack. *)
Lemma climb_pop (a : list KeyNode) (col : nat) : forall s f,
  (forall k ind id, s !! k = Some (ind, id) ->
     exists n, a !! id = Some n /\ indentLevel n = ind
               /\ parent n = snd <$> s !! S k
               /\ (parent n = None -> ind = (-1)%Z)
               /\ (forall p, parent n = Some p -> p < id)) ->
  s <> [] -> top s < f ->
  climb f a (top s) (Z.of_nat col) = top (pop (Z.of_nat col) s).
Proof.
  induction s as [|[ind id] s IH]; intros f Hs Hne Hf; [congruence|].
  simpl in Hf. destruct f as [|f]; [lia|].
  destruct (Hs 0 ind id eq_refl) as (n & Hn & Hind & Hpar & Hroot & Hlt).
  cbn [top pop climb]. rewrite Hn, Hind.
  destruct (Z.ltb_spec ind (Z.of_nat col)) as [Hc|Hc].
  - destruct (Z.leb_spec (Z.of_nat col) ind); [lia|]. reflexivity.
  - destruct (Z.leb_spec (Z.of_nat col) ind); [|lia].
    destruct s as [|[ind' id'] s'].
    + simpl in Hpar. specialize (Hroot Hpar). lia.
    + simpl in Hpar. rewrite Hpar. cbn [snd].
      apply (IH f).
      * intros k i0 id0 Hk. apply (Hs (S k)). exact Hk.
      * discriminate.
      * simpl. specialize (Hlt _ Hpar). lia.
Qed.

(** On a line that holds no key, the enclosing node is the node under
    which the parser, arrived at the line, puts a key that starts at the
    column of the cursor. *)
Lemma enclosing_on_free_line text line col :
  (forall l, lines text !! line = Some l -> classify l = None) ->
  enclosing (parseCompose text) line col
  = attach_point (state_at text line) col.
Proof.
  intros Hfree. unfold attach_point, state_at.
  set (pre := take line (lines text)). set (st := run init 0 pre).
  assert (I : Inv pre st) by apply (run_inv pre [] init init_inv).
  pose proof (parseCompose_well_formed text) as wf.
  pose proof (parse_inv text) as IF.
  assert (EF : nodes (parseCompose text)
               = arena (run st (length pre) (drop line (lines text)))).
  { unfold parseCompose. cbn [nodes]. unfold st, pre.
    rewrite <- (run_app (take line (lines text)) init 0), take_drop.
    reflexivity. }
  destruct (inv_top _ _ I) as (ind0 & rest0 & Htop).
  set (r0 := length (arena st) - 1) in *.
  assert (Hlen : 0 < length (arena st)).
  { destruct (inv_root _ _ I) as (r & Hr & _). apply lookup_lt_Some in Hr. lia. }
  assert (Hpre : length pre = line `min` length (lines text))
    by apply length_take.
  destruct (lookup_lt_is_Some_2 (arena st) r0) as [m0 Hm0]; [unfold r0; lia|].
  destruct (run_keeps (drop line (lines text)) st (length pre) r0 m0 Hm0)
    as (m & Hm & Esame).
  rewrite <- EF in Hm.
  assert (Hbefore : r0 <> 0 -> lineNumber m < line).
  { intros Hr0.
    assert (He : r0 - 1 < length (entries st)).
    { pose proof (inv_length _ _ I). unfold r0 in *. lia. }
    destruct (lookup_lt_is_Some_2 (entries st) (r0 - 1) He) as [e He'].
    destruct (inv_index _ _ I _ _ He') as (_ & Hline & n & Hn & El & _).
    replace (S (r0 - 1)) with r0 in Hn by lia.
    assert (n = m0) by congruence. subst n.
    destruct Esame as (_ & _ & _ & -> & _). lia. }
  assert (Hres : resolve (parseCompose text) line col = r0).
  { apply Nat.le_antisymm.
    - destruct (Nat.le_gt_cases (resolve (parseCompose text) line col) r0)
        as [Hle|Hgt]; [exact Hle|exfalso].
      destruct (resolve_is_node _ wf line col) as [n Hn].
      assert (Hr : resolve (parseCompose text) line col <> 0) by lia.
      assert (Hsb : node_starts_before n line col).
      { apply (resolve_last_before _ wf line col _ n Hn Hr). lia. }
      assert (Hl : length pre <= lineNumber n).
      { rewrite EF in Hn. apply (run_later _ _ _ _ _ Hn). unfold r0 in Hgt. lia. }
      destruct (inv_lines _ _ IF _ _ Hn Hr) as (l0 & li & Hl0 & Hc0 & _).
      pose proof (lookup_lt_Some _ _ _ Hl0) as Hlt0.
      assert (lineNumber n = line) by (destruct Hsb as [?|[? _]]; lia).
      rewrite (Hfree l0) in Hc0; [discriminate|congruence].
    - destruct (Nat.eq_dec r0 0) as [->|Hr0]; [lia|].
      apply (resolve_last_before _ wf line col r0 m Hm Hr0).
      left. auto. }
  unfold enclosing. rewrite Hres, Hm.
  assert (Hkey : on_key m line col = false).
  { destruct (on_key m line col) eqn:Hk; [|reflexivity].
    apply on_key_spec in Hk as [Hl Hc]. destruct (Nat.eq_dec r0 0) as [E|Hr0].
    - rewrite E in Hm. rewrite (wf_root_key _ wf _ Hm) in Hc. simpl in Hc. lia.
    - specialize (Hbefore Hr0). lia. }
  rewrite Hkey.
  replace r0 with (top (stack st)) by (rewrite Htop; reflexivity).
  apply climb_pop.
  - intros k ind id Hk.
    destruct (inv_chain _ _ I _ _ _ Hk) as (n & Hn & Hind & Hpar).
    destruct (run_keeps (drop line (lines text)) st (length pre) id n Hn)
      as (n' & Hn' & _ & _ & Ei & _ & _ & Ep).
    rewrite <- EF in Hn'. exists n'. split; [exact Hn'|].
    split; [congruence|]. split; [congruence|]. split.
    + intros Hnone. destruct (Nat.eq_dec id 0) as [->|Hid].
      * destruct (inv_root _ _ I) as (r & Hr & _ & _ & Hri). congruence.
      * destruct (inv_parent _ _ I _ _ Hn Hid) as (q & _ & Hq & _). congruence.
    + intros q Hq. destruct (Nat.eq_dec id 0) as [->|Hid].
      * destruct (inv_root _ _ I) as (r & Hr & Hrp & _). congruence.
      * destruct (inv_parent _ _ I _ _ Hn Hid) as (q' & _ & Hq' & Hlt & _).
        assert (q' = q) by congruence. subst q'. exact Hlt.
  - rewrite Htop. discriminate.
  - rewrite Htop. cbn [top]. apply lookup_lt_Some in Hm. exact Hm.
Qed.

(** On a key, the enclosing node is the parent of the key. *)
Lemma enclosing_on_key text line col i n p :
  nodes (parseCompose text) !! i = Some n -> i <> 0 ->
  cursor_on_key n line col -> parent n = Some p ->
  enclosing (parseCompose text) line col = p.
Proof.
  intros Hn Hi Hk Hp. pose proof (parseCompose_well_formed text) as wf.
  unfold enclosing.
  rewrite (resolve_on_line _ wf line col i n Hn Hi); [|apply Hk|apply Hk].
  rewrite Hn. apply on_key_spec in Hk. rewrite Hk, Hp. reflexivity.
Qed.

Lemma filter_sublist {A B} (f : A -> B) (P : A -> bool) (l : list A) :
  sublist (map f (List.filter P l)) (map f l).
Proof.
  induction l as [|x l IH]; simpl; [constructor|].
  destruct (P x); simpl; [apply sublist_skip|apply sublist_cons]; exact IH.
Qed.

(** C4: the labels that [complete] offers are the labels of the
    candidates of the registry for the key path of the enclosing node,
    but those that are the key of a node of the tree whose parent is the
    enclosing node; they come in the order of the registry.  The
    enclosing node is the level of the cursor: on a key it is the parent
    of the key, and on a line that holds no key it is the node under
    which the parser puts a key typed at the cursor, so that the nodes
    whose parent it is are the siblings of such a key.  In the
    example text, with the cursor on the line after [image: x], at the
    column of [image], whether or not the indentation of the new key is
    typed, the enclosing node is [web]: the labels offered are the
    candidates for a service but [image], and with a second key [ports]
    under [web], but [image] and [ports]. *)
Theorem complete_excludes_present (reg : ComposeVersionKeys) (text : jsstring)
    (line col : nat) (declared : option Variant) :
  let pr := parseCompose text in
  let e := enclosing pr line col in
  let v := match declared with Some v => v | None => VAll end in
  (forall l,
     In l (map label (complete reg text line col declared))
     <-> In l (map fst (candidatesAt reg (path_of (nodes pr) e) v))
         /\ ~ exists i n, nodes pr !! i = Some n /\ parent n = Some e
                          /\ key n = l)
  /\ sublist (map label (complete reg text line col declared))
       (map fst (candidatesAt reg (path_of (nodes pr) e) v))
  /\ (forall i n p,
        nodes pr !! i = Some n -> i <> 0 -> cursor_on_key n line col ->
        parent n = Some p -> e = p)
  /\ ((forall l, lines text !! line = Some l -> classify l = None) ->
      e = attach_point (state_at text line) col
      /\ forall l' li,
           classify l' = Some li -> l_indent li = col ->
           exists n',
             last (arena (step (state_at text line) line l')) = Some n'
             /\ key n' = l_key li /\ parent n' = Some e)
  /\ map (fun t => key_of (nodes (parseCompose t)) (enclosing (parseCompose t) 3 4))
       [example_text; typed_text]
     = [str "web"; str "web"]
  /\ (forall l,
        In l (map label (complete reg example_text 3 4 declared))
        <-> In l (map fst (candidatesAt reg [str "services"; str "web"] v))
            /\ l <> str "image")
  /\ (forall l,
        In l (map label (complete reg typed_text 3 4 declared))
        <-> In l (map fst (candidatesAt reg [str "services"; str "web"] v))
            /\ l <> str "image")
  /\ (forall l,
        In l (map label (complete reg two_keys_text 4 4 declared))
        <-> In l (map fst (candidatesAt reg [str "services"; str "web"] v))
            /\ l <> str "image" /\ l <> str "ports")
  /\ map label (complete sample_registry typed_text 3 4 (Some V2))
     = [str "build"; str "ports"]
  /\ map label (complete sample_registry two_keys_text 4 4 (Some V2))
     = [str "build"].
Proof.
  intros pr e v.
  split; [|split; [|split; [|split; [|split; [vm_compute; reflexivity|]]]]].
  - intros l.
    rewrite (complete_at reg text line col declared e _ _ eq_refl eq_refl eq_refl).
    rewrite (siblingLabels_spec _ _ _ (parseCompose_well_formed text)).
    reflexivity.
  - rewrite complete_labels. apply filter_sublist.
  - intros i n p. apply enclosing_on_key.
  - intros Hfree.
    pose proof (enclosing_on_free_line text line col Hfree) as He. fold pr e in He.
    split; [exact He|].
    intros l' li Hc Hcol. unfold step. rewrite Hc. cbn [arena].
    rewrite last_snoc. eexists. split; [reflexivity|]. split; [reflexivity|].
    cbn [parent]. rewrite Hcol, He. reflexivity.
  - split; [|split; [|split; [|split; vm_compute; reflexivity]]]; intros l.
    + rewrite (complete_at reg example_text 3 4 declared 2 [str "image"]
                 [str "services"; str "web"]); try (vm_compute; reflexivity).
      simpl. intuition congruence.
    + rewrite (complete_at reg typed_text 3 4 declared 2 [str "image"]
                 [str "services"; str "web"]); try (vm_compute; reflexivity).
      simpl. intuition congruence.
    + rewrite (complete_at reg two_keys_text 4 4 declared 2
                 [str "image"; str "ports"] [str "services"; str "web"]);
        try (vm_compute; reflexivity).
      simpl. intuition congruence.
Qed.

(** *** Hover *)





End ComposeFacts.

(** ** More on the image quick pick *)

Module QuickPickImageProperties.
Import QuickPickImage QuickPickImageFacts QuickPickImageCommand QuickPickShapes.

Lemma computeItems_eq (images : list ImageDesc) (includeAll : option bool) :
  computeItems images includeAll
  = (if withAll images includeAll then [allImages] else [])
    ++ flat_map itemsOf images.
Proof.
  unfold computeItems. rewrite pushImages_eq.
  destruct includeAll as [[|]|], images; reflexivity.
Qed.

Lemma createItem_label image tag : label (createItem image tag) <> [].
Proof. unfold createItem. destruct tag; simpl; discriminate. Qed.

Lemma itemsOf_labels image : Forall (fun it => label it <> []) (itemsOf image).
Proof.
  unfold itemsOf. destruct (RepoTags image) as [tags|].
  - apply Forall_forall. intros it Hit.
    apply list_elem_of_In, in_map_iff in Hit as (tag & <- & _).
    apply createItem_label.
  - repeat constructor. apply createItem_label.
Qed.

Lemma itemsOf_descriptor image it :
  In it (itemsOf image) -> imageDesc it = Some image.
Proof.
  unfold itemsOf. destruct (RepoTags image) as [tags|].
  - intros H. apply in_map_iff in H as (tag & <- & _). reflexivity.
  - intros [<-|[]]. reflexivity.
Qed.

Lemma itemsOf_nil image : itemsOf image = [] <-> RepoTags image = Some [].
Proof.
  unfold itemsOf. destruct (RepoTags image) as [[|t ts]|]; simpl;
    split; intros H; try reflexivity; discriminate.
Qed.

Lemma flat_map_labels (images : list ImageDesc) :
  Forall (fun it => label it <> []) (flat_map itemsOf images).
Proof.
  induction images as [|image images IH]; simpl; [constructor|].
  apply Forall_app. split; [apply itemsOf_labels|exact IH].
Qed.

(** X1: no item of the pick has an empty label: an empty repo tag is shown
    as [<none>]. *)
Theorem computeItems_labels_not_empty (images : list ImageDesc)
    (includeAll : option bool) :
  Forall (fun it => label it <> []) (computeItems images includeAll).
Proof.
  rewrite computeItems_eq. apply Forall_app. split.
  - destruct (withAll images includeAll); repeat constructor. discriminate.
  - apply flat_map_labels.
Qed.

(** X2: the images that can be picked are the images of the list, except
    those whose [RepoTags] is the empty array: such an image has no
    item. *)
Theorem computeItems_pickable (images : list ImageDesc)
    (includeAll : option bool) (image : ImageDesc) :
  (exists it, In it (computeItems images includeAll) /\ imageDesc it = Some image)
  <-> In image images /\ RepoTags image <> Some [].
Proof.
  rewrite computeItems_eq. split.
  - intros (it & Hin & Hd). apply in_app_or in Hin as [Hin|Hin].
    + destruct (withAll images includeAll); [|destruct Hin].
      destruct Hin as [<-|[]]. discriminate Hd.
    + apply in_flat_map in Hin as (image' & Him & Hit).
      pose proof (itemsOf_descriptor _ _ Hit) as Hd'.
      assert (image' = image) by congruence. subst image'.
      split; [exact Him|]. intros E. apply itemsOf_nil in E.
      rewrite E in Hit. destruct Hit.
  - intros [Him Hne].
    destruct (itemsOf image) as [|it its] eqn:E.
    + apply itemsOf_nil in E. contradiction.
    + exists it. split.
      * apply in_or_app. right. apply in_flat_map. exists image.
        split; [exact Him|]. rewrite E. left. reflexivity.
      * apply itemsOf_descriptor. rewrite E. left. reflexivity.
Qed.

(** X3: the items of two lists of images put end to end are the items of
    the first followed by the items of the second, after the entry for
    all images if there is one. *)
Theorem computeItems_app (a b : list ImageDesc) (includeAll : option bool) :
  computeItems (a ++ b) includeAll
  = (if withAll (a ++ b) includeAll then [allImages] else [])
    ++ computeItems a None ++ computeItems b None.
Proof.
  rewrite !computeItems_eq, flat_map_app.
  replace (withAll a None) with false by (destruct a; reflexivity).
  replace (withAll b None) with false by (destruct b; reflexivity).
  reflexivity.
Qed.

(** X4: the pick is empty exactly when no entry for all images is added
    and every image has the empty array for [RepoTags]; a list of images
    that is not empty can give an empty pick. *)
Theorem computeItems_nil (images : list ImageDesc) (includeAll : option bool) :
  computeItems images includeAll = []
  <-> withAll images includeAll = false
      /\ Forall (fun image => RepoTags image = Some []) images.
Proof.
  rewrite computeItems_eq. split.
  - intros H. apply app_eq_nil in H as [H1 H2]. split.
    + destruct (withAll images includeAll); [discriminate|reflexivity].
    + clear H1. induction images as [|image images IH]; [constructor|].
      simpl in H2. apply app_eq_nil in H2 as [Hi Hr].
      constructor; [apply itemsOf_nil; exact Hi|apply IH; exact Hr].
  - intros [Hw Hall]. rewrite Hw. simpl. clear Hw.
    induction Hall as [|image images Hi _ IH]; [reflexivity|].
    simpl. rewrite IH, app_nil_r. apply itemsOf_nil. exact Hi.
Qed.

(** X5: when every image has its [RepoTags] and no tag is the empty
    string, the labels of the pick are the repo tags of the images, in
    order (after the label of the entry for all images if there is
    one). *)
Theorem computeItems_labels_are_tags (images : list ImageDesc)
    (includeAll : option bool) :
  allTagged images ->
  map label (computeItems images includeAll)
  = (if withAll images includeAll then [str "All Images"] else [])
    ++ flat_map tagsOf images.
Proof.
  intros Hall. rewrite computeItems_eq, map_app. f_equal.
  - destruct (withAll images includeAll); reflexivity.
  - induction Hall as [|image images (tags & Ht & Hne) _ IH]; [reflexivity|].
    simpl. rewrite map_app, IH. f_equal.
    unfold itemsOf, tagsOf. rewrite Ht, map_map.
    clear Ht. induction Hne as [|t ts Hnt _ IHt]; [reflexivity|].
    cbn [map]. rewrite IHt. f_equal. destruct t; [contradiction|reflexivity].
Qed.

Lemma computeItems_labels_are_tags_witness :
  map label (computeItems two_images (Some true))
  = [str "All Images"; str "node:14"; str "node:latest"; str "ubuntu:18.04"].
Proof.
  apply (computeItems_labels_are_tags two_images (Some true)).
  repeat constructor; eexists; (split; [reflexivity|]);
    repeat constructor; discriminate.
Defined.

Section QuickPickImage.

Variables E T : Type.
Variable getImageDescriptors : ImageFilters -> E + option (list ImageDesc).
Variable parseErrorMessage : E -> jsstring.
Variable showQuickPick : list ImageItem -> QuickPickOptions -> T + ImageItem.

(** X6: [quickPickImage] throws an error of its own exactly when the
    daemon throws or returns no image ([null] or the empty array); the
    message is then the one of the case, and the quick pick plays no
    part. *)
Theorem quickPickImage_errors (includeAll : option bool) :
  ((exists m, quickPickImage E T getImageDescriptors parseErrorMessage
                showQuickPick includeAll = inl (JsError m))
   <-> (exists e, getImageDescriptors imageFilters = inl e)
       \/ getImageDescriptors imageFilters = inr None
       \/ getImageDescriptors imageFilters = inr (Some []))
  /\ (forall e, getImageDescriptors imageFilters = inl e ->
        forall show' : list ImageItem -> QuickPickOptions -> T + ImageItem,
        quickPickImage E T getImageDescriptors parseErrorMessage show' includeAll
        = inl (JsError (cannotConnect (parseErrorMessage e))))
  /\ (getImageDescriptors imageFilters = inr None
      \/ getImageDescriptors imageFilters = inr (Some []) ->
        forall show' : list ImageItem -> QuickPickOptions -> T + ImageItem,
        quickPickImage E T getImageDescriptors parseErrorMessage show' includeAll
        = inl (JsError noImages)).
Proof.
  unfold quickPickImage. split; [|split].
  - destruct (getImageDescriptors imageFilters) as [e|[[|image images]|]]; split;
      try (intros _; eauto; fail); try (intros; eexists; reflexivity).
    + intros (m & H). destruct (showQuickPick _ _); discriminate.
    + intros [(e & H)|[H|H]]; discriminate.
  - intros e H show'. rewrite H. reflexivity.
  - intros [H|H] show'; rewrite H; reflexivity.
Qed.

(** X7: when the quick pick answers with one of the items it was given,
    the item [quickPickImage] returns is the entry for all images, which
    takes [includeAll], or an item of an image the daemon returned, with
    a label that is not empty. *)
Theorem quickPickImage_returns (includeAll : option bool) (item : ImageItem) :
  picks_among_items T showQuickPick ->
  quickPickImage E T getImageDescriptors parseErrorMessage showQuickPick
    includeAll = inr item ->
  exists images,
    getImageDescriptors imageFilters = inr (Some images)
    /\ images <> []
    /\ label item <> []
    /\ ((item = allImages /\ includeAll = Some true)
        \/ (exists image, In image images /\ imageDesc item = Some image
                          /\ RepoTags image <> Some [])).
Proof.
  intros Hpick. unfold quickPickImage.
  destruct (getImageDescriptors imageFilters) as [e|[[|image images]|]];
    try discriminate.
  destruct (showQuickPick _ _) as [t|it] eqn:Hshow; [discriminate|].
  intros [= ->]. apply Hpick in Hshow.
  exists (image :: images). split; [reflexivity|]. split; [discriminate|].
  rewrite computeItems_eq in Hshow. apply in_app_or in Hshow as [Hin|Hin].
  - destruct includeAll as [[|]|]; simpl in Hin;
      [destruct Hin as [<-|[]] | destruct Hin | destruct Hin].
    split; [discriminate|]. left. auto.
  - split.
    + pose proof (flat_map_labels (image :: images)) as HL.
      rewrite Forall_forall in HL. apply HL. apply list_elem_of_In. exact Hin.
    + right. apply in_flat_map in Hin as (image' & Him & Hit).
      exists image'. split; [exact Him|].
      split; [apply itemsOf_descriptor; exact Hit|].
      intros Hnil. apply itemsOf_nil in Hnil. rewrite Hnil in Hit. destruct Hit.
Qed.

End QuickPickImage.

Lemma quickPickImage_returns_witness :
  exists images,
    daemon_with_two_images imageFilters = inr (Some images)
    /\ images <> []
    /\ label allImages <> []
    /\ ((allImages = allImages /\ Some true = Some true)
        \/ (exists image, In image images /\ imageDesc allImages = Some image
                          /\ RepoTags image <> Some [])).
Proof.
  apply (quickPickImage_returns unit unit
           daemon_with_two_images (fun _ => []) first_item
           (Some true) allImages).
  - intros [|it its] o item H; [discriminate|].
    injection H as <-. left. reflexivity.
  - reflexivity.
Defined.

End QuickPickImageProperties.

(** ** More on the FROM line *)

Module FromDirectiveProperties.
Import RegexSpec FromDirective FromLineShapes.

Ltac lower_bounds L :=
  unfold is_lower, is_upper, in_range in L;
  apply andb_true_iff in L as [?%N.leb_le ?%N.leb_le].

Ltac through_upper c :=
  unfold to_upper; destruct (is_lower c) eqn:L;
  [lower_bounds L | cbv iota; rewrite ?L; reflexivity].

Lemma to_upper_idem c : to_upper (to_upper c) = to_upper c.
Proof.
  through_upper c. unfold to_upper, is_lower. cu_decide. reflexivity.
Qed.

Lemma is_space_upper c : is_space (to_upper c) = is_space c.
Proof. through_upper c. unfold is_space. cu_decide. reflexivity. Qed.

Lemma is_alpha_upper c : is_alpha (to_upper c) = is_alpha c.
Proof.
  through_upper c. unfold is_alpha, is_lower, is_upper. cu_decide. reflexivity.
Qed.

Lemma image_char_upper c : image_char (to_upper c) = image_char c.
Proof.
  through_upper c.
  unfold image_char, is_word, is_alpha, is_digit, is_lower, is_upper.
  cu_decide. reflexivity.
Qed.

Lemma alias_char_upper c : alias_char (to_upper c) = alias_char c.
Proof.
  through_upper c.
  unfold alias_char, is_alpha, is_digit, is_lower, is_upper.
  cu_decide. reflexivity.
Qed.

(** A predicate that does not see letter case holds along two lines that
    differ in case only. *)
Lemma Forall_same_case (P : cu -> bool) (a b : jsstring) :
  (forall c, P (to_upper c) = P c) ->
  same_up_to_case a b ->
  Forall (fun c => P c = true) a -> Forall (fun c => P c = true) b.
Proof.
  intros HP Hab. induction Hab as [|c c' a b E _ IH]; intros H; [constructor|].
  inversion H; subst. constructor; [|apply IH; assumption].
  rewrite <- HP, <- E, HP. assumption.
Qed.

Lemma spells_same_case w (a b : jsstring) :
  same_up_to_case a b -> spells true w a -> spells true w b.
Proof.
  unfold spells, same_up_to_case. intros Hab. revert w.
  induction Hab as [|c c' a b E _ IH]; intros w H; inversion H; subst;
    constructor; [|apply IH; assumption].
  unfold char_eq in *. rewrite <- E. assumption.
Qed.

Lemma same_case_app_l (a1 a2 b : jsstring) :
  same_up_to_case (a1 ++ a2) b ->
  exists b1 b2, b = b1 ++ b2 /\ same_up_to_case a1 b1 /\ same_up_to_case a2 b2.
Proof.
  unfold same_up_to_case. revert b. induction a1 as [|c a1 IH]; intros b H.
  - exists [], b. split; [reflexivity|]. split; [constructor|exact H].
  - inversion H as [|? c' ? b' E Hrest]; subst.
    destruct (IH _ Hrest) as (b1 & b2 & -> & H1 & H2).
    exists (c' :: b1), b2. split; [reflexivity|]. split; [constructor; assumption|exact H2].
Qed.

Lemma same_case_sym (a b : jsstring) : same_up_to_case a b -> same_up_to_case b a.
Proof.
  unfold same_up_to_case. intros H. induction H; constructor; auto.
Qed.

Lemma alias_clause_same_case (a b : jsstring) :
  same_up_to_case a b -> alias_clause a -> alias_clause b.
Proof.
  intros Hab (w3 & kw & w4 & c & al & -> & Hw3 & Hkw & Hw4 & Hc & Hal).
  apply same_case_app_l in Hab as (w3' & r1 & -> & S3 & Hab).
  apply same_case_app_l in Hab as (kw' & r2 & -> & Sk & Hab).
  apply same_case_app_l in Hab as (w4' & r3 & -> & S4 & Hab).
  inversion Hab as [|? c' ? al' E Sal]; subst.
  exists w3', kw', w4', c', al'. split; [reflexivity|].
  split; [apply (Forall_same_case is_space w3); auto using is_space_upper|].
  split; [apply (spells_same_case _ kw); assumption|].
  split; [apply (Forall_same_case is_space w4); auto using is_space_upper|].
  split; [rewrite <- is_alpha_upper, <- E, is_alpha_upper; exact Hc|].
  apply (Forall_same_case alias_char al); auto using alias_char_upper.
Qed.

Lemma from_line_same_case (a b : jsstring) :
  same_up_to_case a b -> from_line a -> from_line b.
Proof.
  intros Hab (w1 & kw & w2 & img & tail & -> & Hw1 & Hkw & Hw2 & Himg & Htail).
  apply same_case_app_l in Hab as (w1' & r1 & -> & S1 & Hab).
  apply same_case_app_l in Hab as (kw' & r2 & -> & Sk & Hab).
  apply same_case_app_l in Hab as (w2' & r3 & -> & S2 & Hab).
  apply same_case_app_l in Hab as (img' & tail' & -> & Si & St).
  exists w1', kw', w2', img', tail'. split; [reflexivity|].
  split; [apply (Forall_same_case is_space w1); auto using is_space_upper|].
  split; [apply (spells_same_case _ kw); assumption|].
  split; [apply (Forall_same_case is_space w2); auto using is_space_upper|].
  split; [apply (Forall_same_case image_char img); auto using image_char_upper|].
  destruct Htail as [->|Hal].
  - left. inversion St. reflexivity.
  - right. apply (alias_clause_same_case tail); assumption.
Qed.

Lemma bool_eq_iff (x y : bool) : (x = true <-> y = true) -> x = y.
Proof.
  destruct x, y; intros [H1 H2]; try reflexivity.
  - symmetry. apply H1. reflexivity.
  - apply H2. reflexivity.
Qed.

(** X8: the pattern does not see letter case: two lines that differ in the
    case of their letters only are recognized alike. *)
Theorem from_pattern_ignores_case (a b : jsstring) :
  same_up_to_case a b ->
  test FROM_DIRECTIVE_PATTERN a = test FROM_DIRECTIVE_PATTERN b.
Proof.
  intros Hab. apply bool_eq_iff. rewrite !from_pattern_shape.
  split; apply from_line_same_case; [exact Hab|apply same_case_sym; exact Hab].
Qed.

Lemma from_pattern_ignores_case_witness :
  test FROM_DIRECTIVE_PATTERN (str "from NODE:14 as Builder")
  = test FROM_DIRECTIVE_PATTERN (str "FROM node:14 AS builder").
Proof.
  apply from_pattern_ignores_case. repeat constructor.
Defined.

(** The letters of a keyword of the pattern. *)
Lemma char_eq_letter a c :
  is_upper a = true -> char_eq true a c = true -> is_alpha c = true.
Proof.
  intros Ha H. lower_bounds Ha. unfold char_eq, cu_eqb, to_upper in H.
  replace (is_lower a) with false in H
    by (unfold is_lower; cu_decide; reflexivity).
  apply N.eqb_eq in H. destruct (is_lower c) eqn:L.
  - unfold is_alpha. rewrite L. reflexivity.
  - subst a. unfold is_alpha, is_upper. cu_decide. apply orb_true_r.
Qed.

Lemma spells_letters w s :
  Forall (fun a => is_upper a = true) w -> spells true w s ->
  Forall (fun c => is_alpha c = true) s.
Proof.
  unfold spells. intros Hw H. induction H as [|a c w s Hc _ IH]; [constructor|].
  inversion Hw; subst. constructor; [eapply char_eq_letter; eauto|auto].
Qed.

Lemma FROM_letters : Forall (fun a => is_upper a = true) (str "FROM").
Proof. repeat constructor. Qed.

Lemma AS_letters : Forall (fun a => is_upper a = true) (str "AS").
Proof. repeat constructor. Qed.

Lemma from_char_of (P : cu -> bool) (s : jsstring) :
  (forall c, P c = true -> from_char c = true) ->
  Forall (fun c => P c = true) s -> Forall (fun c => from_char c = true) s.
Proof. intros HP H. eapply Forall_impl; [exact H|exact HP]. Qed.

Lemma space_from_char c : is_space c = true -> from_char c = true.
Proof. unfold from_char. intros ->. reflexivity. Qed.

Lemma alpha_from_char c : is_alpha c = true -> from_char c = true.
Proof.
  unfold from_char, is_word. intros ->. rewrite orb_true_r. reflexivity.
Qed.

Lemma image_from_char c : image_char c = true -> from_char c = true.
Proof.
  unfold image_char, from_char. intros H.
  destruct (is_word c), (cu_eqb c 45), (cu_eqb c 47), (cu_eqb c 58);
    try discriminate; rewrite ?orb_true_r; reflexivity.
Qed.

Lemma alias_from_char c : alias_char c = true -> from_char c = true.
Proof.
  unfold alias_char, from_char, is_word. intros H.
  destruct (is_alpha c), (is_digit c), (cu_eqb c 45), (cu_eqb c 95),
    (cu_eqb c 92), (cu_eqb c 46); try discriminate;
    rewrite ?orb_true_r; reflexivity.
Qed.

(** X9: a recognized line is made of whitespace, word characters, hyphens,
    dots, slashes, colons and backslashes only: a line with any other
    character (the [@] of a digest, the [=] of a flag, the [$] of a
    variable, a quote) is not recognized. *)
Theorem from_pattern_characters (line : jsstring) :
  test FROM_DIRECTIVE_PATTERN line = true ->
  Forall (fun c => from_char c = true) line.
Proof.
  intros H. apply from_pattern_shape in H
    as (w1 & kw & w2 & img & tail & -> & Hw1 & Hkw & Hw2 & Himg & Htail).
  repeat (apply Forall_app; split).
  - apply (from_char_of is_space); [exact space_from_char|exact Hw1].
  - apply (from_char_of is_alpha); [exact alpha_from_char|].
    apply (spells_letters (str "FROM")); [exact FROM_letters|exact Hkw].
  - apply (from_char_of is_space); [exact space_from_char|exact Hw2].
  - apply (from_char_of image_char); [exact image_from_char|exact Himg].
  - destruct Htail as [->|(w3 & kw2 & w4 & c & al & -> & Hw3 & Hkw2 & Hw4 & Hc & Hal)];
      [constructor|].
    repeat (apply Forall_app; split).
    + apply (from_char_of is_space); [exact space_from_char|exact Hw3].
    + apply (from_char_of is_alpha); [exact alpha_from_char|].
      apply (spells_letters (str "AS")); [exact AS_letters|exact Hkw2].
    + apply (from_char_of is_space); [exact space_from_char|exact Hw4].
    + constructor; [apply alpha_from_char; exact Hc|].
      apply (from_char_of alias_char); [exact alias_from_char|exact Hal].
Qed.

Lemma from_pattern_characters_witness :
  Forall (fun c => from_char c = true) (str "FROM node:14 AS builder").
Proof.
  apply from_pattern_characters. vm_compute. reflexivity.
Defined.

(** Lines with a digest, a flag, a variable: not recognized. *)
Lemma from_pattern_rejects :
  map (test FROM_DIRECTIVE_PATTERN)
    [str "FROM node@sha256:0123"; str "FROM --platform=linux/amd64 node";
     str "FROM $BASE"; str "FROM ${BASE}:1"]
  = [false; false; false; false].
Proof. vm_compute. reflexivity. Qed.

(** A blank prefix in front of a text that starts a line of the shape. *)
Lemma blank_prefix (ws line ws1 : jsstring) c r :
  blank ws -> blank ws1 -> is_space c = false ->
  ws ++ line = ws1 ++ c :: r ->
  exists ws1', ws1 = ws ++ ws1' /\ line = ws1' ++ c :: r.
Proof.
  unfold blank. intros Hws. revert ws1.
  induction Hws as [|x ws Hx _ IH]; intros ws1 Hws1 Hc E.
  - exists ws1. auto.
  - destruct ws1 as [|y ws1].
    + simpl in E. injection E as -> _. congruence.
    + simpl in E. injection E as -> E. inversion Hws1; subst.
      destruct (IH ws1) as (ws1' & -> & ->); auto.
      exists ws1'. auto.
Qed.

Lemma spells_FROM_head kw :
  spells true (str "FROM") kw ->
  exists c r, kw = c :: r /\ is_space c = false.
Proof.
  intros H. pose proof (spells_letters _ _ FROM_letters H) as HL.
  inversion H as [|a c w s Hc Hr]; subst. exists c, s. split; [reflexivity|].
  inversion HL as [|? ? Ha _]; subst.
  unfold is_alpha in Ha. apply orb_true_iff in Ha as [Ha|Ha]; lower_bounds Ha;
    unfold is_space; cu_decide; reflexivity.
Qed.

(** X10: whitespace in front of a line does not change whether it is
    recognized. *)
Theorem from_pattern_ignores_indentation (ws line : jsstring) :
  blank ws ->
  test FROM_DIRECTIVE_PATTERN (ws ++ line) = test FROM_DIRECTIVE_PATTERN line.
Proof.
  intros Hws. apply bool_eq_iff. rewrite !from_pattern_shape. split.
  - intros (w1 & kw & w2 & img & tail & E & Hw1 & Hkw & Hw2 & Himg & Htail).
    destruct (spells_FROM_head kw Hkw) as (c & r & -> & Hc).
    simpl in E.
    destruct (blank_prefix ws line w1 c _ Hws Hw1 Hc E) as (w1' & -> & ->).
    exists w1', (c :: r), w2, img, tail. split; [reflexivity|].
    split; [apply Forall_app in Hw1 as [_ H]; exact H|]. auto.
  - intros (w1 & kw & w2 & img & tail & -> & Hw1 & Hkw & Hw2 & Himg & Htail).
    exists (ws ++ w1), kw, w2, img, tail. rewrite <- app_assoc.
    split; [reflexivity|]. split; [apply Forall_app; split; assumption|]. auto.
Qed.

Lemma from_pattern_ignores_indentation_witness :
  test FROM_DIRECTIVE_PATTERN (str "    " ++ str "FROM node")
  = test FROM_DIRECTIVE_PATTERN (str "FROM node").
Proof.
  apply from_pattern_ignores_indentation. repeat constructor.
Defined.

End FromDirectiveProperties.

(** ** The captures of a match *)

Module RegexRunsFacts.
Import RegexSpec.

#[local] Hint Constructors Run : core.
#[local] Hint Constructors Matches : core.

Lemma repeat_matcher_run i r n :
  (forall x k z, matcher i r x k = Some z ->
     exists y, Run i r x y /\ k y = Some z) ->
  forall x k z,
    repeat_matcher (matcher i r) (groups r) n x k = Some z ->
    exists y, Run i (Star r) x y /\ k y = Some z.
Proof.
  intros Hbody. induction n as [|n IH]; intros x k z; simpl.
  - intros H. exists x. auto.
  - destruct (matcher i r (clear_captures (groups r) x) _) as [z'|] eqn:E.
    + intros [= ->]. apply Hbody in E as (y & Hy & Hk).
      destruct (length (rest y) <? length (rest x)); [|discriminate].
      apply IH in Hk as (y' & Hy' & Hk'). exists y'. eauto.
    + intros H. exists x. auto.
Qed.

(** Whatever the matcher returns, it reached along a run. *)
Lemma matcher_run i r : forall x k z,
  matcher i r x k = Some z -> exists y, Run i r x y /\ k y = Some z.
Proof.
  induction r as [|a|items|items|r1 IH1 r2 IH2|r1 IH1 r2 IH2|r IH|n r IH| |];
    intros x k z; simpl.
  - intros H. exists x. auto.
  - destruct (rest x) as [|c t] eqn:Hr; [discriminate|].
    destruct (char_eq i a c) eqn:Hc; [|discriminate].
    intros H. exists (advance x t). eauto.
  - destruct (rest x) as [|c t] eqn:Hr; [discriminate|].
    destruct (class_matches i items c) eqn:Hc; [|discriminate].
    intros H. exists (advance x t). eauto.
  - destruct (rest x) as [|c t] eqn:Hr; [discriminate|].
    destruct (class_matches i items c) eqn:Hc; [discriminate|].
    intros H. exists (advance x t). eauto.
  - intros H. apply IH1 in H as (y & Hy & H). apply IH2 in H as (y' & Hy' & H).
    exists y'. eauto.
  - destruct (matcher i r1 x k) as [z'|] eqn:E.
    + intros [= ->]. apply IH1 in E as (y & Hy & H). exists y. eauto.
    + intros H. apply IH2 in H as (y & Hy & H). exists y. eauto.
  - apply repeat_matcher_run. exact IH.
  - intros H. apply IH in H as (y & Hy & H). eexists. split; [|exact H]. eauto.
  - destruct (Nat.eqb_spec (endIndex x) 0); [|discriminate].
    intros H. exists x. auto.
  - destruct (rest x) as [|c t] eqn:Hr; [|discriminate].
    intros H. exists x. auto.
Qed.

Lemma scan_run i r s : forall idx j z,
  scan i r idx s = Some (j, z) ->
  exists pre suf, s = pre ++ suf /\ j = idx + length pre
    /\ Run i r {| endIndex := j; rest := suf; captures := [] |} z.
Proof.
  induction s as [|c s IH]; intros idx j z; simpl.
  - destruct (matcher i r _ Some) as [y|] eqn:E; [|discriminate].
    intros [= <- <-]. apply matcher_run in E as (y' & Hy & [= ->]).
    exists [], []. simpl. rewrite Nat.add_0_r. auto.
  - destruct (matcher i r _ Some) as [y|] eqn:E.
    + intros [= <- <-]. apply matcher_run in E as (y' & Hy & [= ->]).
      exists [], (c :: s). simpl. rewrite Nat.add_0_r. auto.
    + intros H. apply IH in H as (pre & suf & -> & -> & H).
      exists (c :: pre), suf. simpl. rewrite Nat.add_succ_r. auto.
Qed.

(** A run consumes a text the pattern describes. *)
Lemma Run_consumes i r x y :
  Run i r x y ->
  exists s, rest x = s ++ rest y /\ endIndex y = endIndex x + length s
            /\ Matches i r (endIndex x) s (rest y).
Proof.
  induction 1 as [x|a c t x Hr Hc|items c t x Hr Hc|items c t x Hr Hc
                 |r1 r2 x y z _ IH1 _ IH2|r1 r2 x y _ IH|r1 r2 x y _ IH
                 |r x|r x y z _ IH1 _ IH2|n r x y _ IH|x Hx|x Hx].
  - exists []. simpl. rewrite Nat.add_0_r. auto.
  - exists [c]. simpl. rewrite Nat.add_1_r. auto.
  - exists [c]. simpl. rewrite Nat.add_1_r. auto.
  - exists [c]. simpl. rewrite Nat.add_1_r. auto.
  - destruct IH1 as (s1 & E1 & N1 & M1). destruct IH2 as (s2 & E2 & N2 & M2).
    exists (s1 ++ s2). rewrite <- app_assoc, <- E2, length_app.
    split; [exact E1|]. split; [lia|].
    apply MSeq; [rewrite <- E2; exact M1|rewrite <- N1; exact M2].
  - destruct IH as (s & E & N & M). exists s. auto.
  - destruct IH as (s & E & N & M). exists s. auto.
  - exists []. simpl. rewrite Nat.add_0_r. auto.
  - destruct IH1 as (s1 & E1 & N1 & M1). destruct IH2 as (s2 & E2 & N2 & M2).
    simpl in E1, N1, M1.
    exists (s1 ++ s2). rewrite <- app_assoc, <- E2, length_app.
    split; [exact E1|]. split; [lia|].
    destruct s1 as [|c s1].
    + simpl in *. rewrite Nat.add_0_r in N1. rewrite <- N1. exact M2.
    + apply MStarS; [discriminate|rewrite <- E2; exact M1|rewrite <- N1; exact M2].
  - destruct IH as (s & E & N & M). exists s. simpl. auto.
  - exists []. simpl. rewrite Nat.add_0_r, Hx. auto.
  - exists []. simpl. rewrite Nat.add_0_r, Hx. auto.
Qed.

Lemma filter_all {A} (l : list A) : List.filter (fun _ => true) l = l.
Proof. induction l as [|a l IH]; simpl; congruence. Qed.

(** A pattern without groups leaves the captures alone. *)
Lemma Run_captures i r x y :
  Run i r x y -> groups r = [] -> captures y = captures x.
Proof.
  induction 1 as [x|a c t x Hr Hc|items c t x Hr Hc|items c t x Hr Hc
                 |r1 r2 x y z _ IH1 _ IH2|r1 r2 x y _ IH|r1 r2 x y _ IH
                 |r x|r x y z _ IH1 _ IH2|n r x y _ IH|x Hx|x Hx];
    simpl; intros Hg; try reflexivity.
  - apply app_eq_nil in Hg as [H1 H2]. rewrite IH2, IH1; auto.
  - apply app_eq_nil in Hg as [H1 H2]. auto.
  - apply app_eq_nil in Hg as [H1 H2]. auto.
  - rewrite IH2, IH1 by (simpl; exact Hg). rewrite Hg. simpl. apply filter_all.
  - discriminate.
Qed.

Lemma Run_seq i r1 r2 x z :
  Run i (Seq r1 r2) x z -> exists y, Run i r1 x y /\ Run i r2 y z.
Proof. intros H. inversion H; subst. eauto. Qed.

Lemma Run_group i n r x z :
  Run i (Group n r) x z ->
  exists y, Run i r x y
            /\ z = set_capture n (take (endIndex y - endIndex x) (rest x)) y.
Proof. intros H. inversion H; subst. eauto. Qed.

Lemma Run_alt i r1 r2 x z :
  Run i (Alt r1 r2) x z -> Run i r1 x z \/ Run i r2 x z.
Proof. intros H. inversion H; subst; auto. Qed.

Lemma Run_empty i x z : Run i Empty x z -> z = x.
Proof. intros H. inversion H; subst. reflexivity. Qed.

Lemma Run_bol i x z : Run i Bol x z -> z = x /\ endIndex x = 0.
Proof. intros H. inversion H; subst. auto. Qed.

Lemma Run_eol i x z : Run i Eol x z -> z = x /\ rest x = [].
Proof. intros H. inversion H; subst. auto. Qed.

(** The text a group has consumed is what it captures. *)
Lemma group_text i r x y :
  Run i r x y ->
  exists s, rest x = s ++ rest y /\ endIndex y = endIndex x + length s
            /\ Matches i r (endIndex x) s (rest y)
            /\ take (endIndex y - endIndex x) (rest x) = s.
Proof.
  intros H. destruct (Run_consumes _ _ _ _ H) as (s & E & N & M).
  exists s. split; [exact E|]. split; [exact N|]. split; [exact M|].
  rewrite N, E. replace (endIndex x + length s - endIndex x) with (length s) by lia.
  rewrite take_app_length. reflexivity.
Qed.

End RegexRunsFacts.

(** ** The groups of a FROM line *)

Module FromDirectiveGroups.
Import RegexSpec RegexRunsFacts FromDirective FromLineShapes.
Local Open Scope regex_scope.

Lemma capture_set n s x : capture n (set_capture n s x) = Some s.
Proof. unfold capture, set_capture. simpl. rewrite Nat.eqb_refl. reflexivity. Qed.

(** X11: whenever the pattern matches a line, the match starts at index 0
    and ends with the line.  The first group is the image reference: the
    run of word characters, hyphens, slashes and colons that follows FROM
    and its whitespace.  The second group is undefined when the line ends
    there, and otherwise the whole alias clause that follows, with its
    whitespace and its AS. *)
Theorem from_pattern_groups_sound (line : jsstring) (idx : nat) (z : MatchState) :
  exec FROM_DIRECTIVE_PATTERN line = Some (idx, z) ->
  idx = 0 /\ rest z = [] /\ endIndex z = length line
  /\ exists ws1 kw ws2 image tail,
       line = ws1 ++ kw ++ ws2 ++ image ++ tail
       /\ blank ws1 /\ spells true (str "FROM") kw /\ blank ws2
       /\ Forall (fun c => image_char c = true) image
       /\ capture 1 z = Some image
       /\ ((tail = [] /\ capture 2 z = None)
           \/ (alias_clause tail /\ capture 2 z = Some tail)).
Proof.
  unfold exec, FROM_DIRECTIVE_PATTERN. cbn [source ignoreCase]. fold alias_group.
  intros H. apply scan_run in H as (pre & suf & Eline & Eidx & H).
  apply Run_seq in H as (x0 & HB & H). apply Run_bol in HB as [Ex0 Hidx].
  cbn [endIndex] in Hidx.
  assert (Hpre : pre = []) by (destruct pre; [reflexivity|simpl in Eidx; lia]).
  rewrite Hpre in Eline. cbn [app] in Eline. clear Eidx Hpre pre.
  apply Run_seq in H as (x1 & H1 & H).
  destruct (Run_consumes _ _ _ _ H1) as (w1 & E1 & N1 & M1).
  pose proof (Run_captures _ _ _ _ H1 eq_refl) as C1.
  apply Run_seq in H as (x2 & H2 & H).
  destruct (Run_consumes _ _ _ _ H2) as (kw & E2 & N2 & M2).
  pose proof (Run_captures _ _ _ _ H2 eq_refl) as C2.
  apply Run_seq in H as (x3 & H3 & H).
  destruct (Run_consumes _ _ _ _ H3) as (w2 & E3 & N3 & M3).
  pose proof (Run_captures _ _ _ _ H3 eq_refl) as C3.
  apply Run_seq in H as (x4 & H4 & H).
  apply Run_group in H4 as (y4 & H4 & Ex4).
  destruct (group_text _ _ _ _ H4) as (img & E4 & N4 & M4 & T4).
  pose proof (Run_captures _ _ _ _ H4 eq_refl) as C4.
  rewrite T4 in Ex4.
  apply Run_seq in H as (x5 & H5 & HE). apply Run_eol in HE as [Ez Hx5].
  apply Matches_star_class, blank_class in M1.
  apply Matches_lits in M2.
  apply Matches_star_class, blank_class in M3.
  apply Matches_star_class, image_class in M4.
  rewrite Ex0 in E1, N1, C1. cbn [endIndex rest captures] in E1, N1, C1.
  assert (C0 : captures y4 = []) by congruence.
  assert (R4 : rest x4 = rest y4) by (rewrite Ex4; reflexivity).
  assert (I4 : endIndex x4 = endIndex y4) by (rewrite Ex4; reflexivity).
  assert (K4 : captures x4 = [(1, img)]).
  { rewrite Ex4. cbn [captures set_capture]. rewrite C0. reflexivity. }
  split; [exact Hidx|]. rewrite Ez. split; [exact Hx5|].
  apply Run_alt in H5 as [HG|H5].
  - apply Run_group in HG as (y5 & HG & Ex5).
    destruct (group_text _ _ _ _ HG) as (tail & E5 & N5 & M5 & T5).
    pose proof (Run_captures _ _ _ _ HG eq_refl) as C5.
    rewrite T5 in Ex5. apply alias_group_shape in M5.
    assert (R5 : rest y5 = []) by (rewrite Ex5 in Hx5; exact Hx5).
    assert (Hline : line = w1 ++ kw ++ w2 ++ img ++ tail).
    { rewrite Eline, E1, E2, E3, E4, <- R4, E5, R5, app_nil_r. reflexivity. }
    split.
    { rewrite Ex5. cbn [endIndex set_capture]. rewrite Hline, !length_app. lia. }
    exists w1, kw, w2, img, tail. split; [exact Hline|].
    repeat (split; [assumption|]).
    split.
    + rewrite Ex5. unfold capture. cbn [captures set_capture].
      rewrite C5, K4. reflexivity.
    + right. split; [exact M5|]. rewrite Ex5. apply capture_set.
  - apply Run_empty in H5.
    assert (R5 : rest y4 = []) by (rewrite H5, R4 in Hx5; exact Hx5).
    assert (Hline : line = w1 ++ kw ++ w2 ++ img ++ []).
    { rewrite Eline, E1, E2, E3, E4, R5. reflexivity. }
    split.
    { rewrite H5, I4, Hline, !length_app. simpl. lia. }
    exists w1, kw, w2, img, []. split; [exact Hline|].
    repeat (split; [assumption|]).
    rewrite H5. unfold capture. rewrite K4. split; [reflexivity|].
    left. split; reflexivity.
Qed.

Lemma from_pattern_groups_sound_witness :
  0 = 0 /\ rest builder_match = []
  /\ endIndex builder_match = length (str "FROM node:14 AS builder")
  /\ exists ws1 kw ws2 image tail,
       str "FROM node:14 AS builder" = ws1 ++ kw ++ ws2 ++ image ++ tail
       /\ blank ws1 /\ spells true (str "FROM") kw /\ blank ws2
       /\ Forall (fun c => image_char c = true) image
       /\ capture 1 builder_match = Some image
       /\ ((tail = [] /\ capture 2 builder_match = None)
           \/ (alias_clause tail /\ capture 2 builder_match = Some tail)).
Proof.
  apply (from_pattern_groups_sound (str "FROM node:14 AS builder") 0 builder_match).
  vm_compute. reflexivity.
Defined.

End FromDirectiveGroups.

(** ** No file is of two kinds *)

Module FileClassificationProperties.
Import Glob FileClassification.

Lemma last_app_some {A} (l1 l2 : list A) y :
  last l2 = Some y -> last (l1 ++ l2) = Some y.
Proof.
  intros H. induction l1 as [|x l1 IH]; [exact H|].
  simpl. destruct (l1 ++ l2); [discriminate|exact IH].
Qed.

Lemma last_cons_some {A} (x : A) l y : last l = Some y -> last (x :: l) = Some y.
Proof. apply (last_app_some [x]). Qed.

Lemma compose_path_last path : compose_file_path path -> last path = Some 108%N.
Proof.
  intros (dir & name & -> & _ & d & c & stem & ext & -> & _ & _ & _ & Hext).
  apply last_app_some, last_cons_some, last_app_some, last_cons_some.
  do 3 apply last_app_some.
  destruct Hext as [->| ->]; reflexivity.
Qed.

Lemma dockerfile_path_last path : dockerfile_path path -> last path = Some 101%N.
Proof.
  intros (dir & name & -> & _ & [(d & f & -> & _)|(stem & -> & _)]).
  - apply last_app_some, last_cons_some, last_app_some, last_cons_some.
    reflexivity.
  - do 2 apply last_app_some. reflexivity.
Qed.

(** X12: no path matches both the Compose glob and the Dockerfile glob,
    and no document is selected both by the filter of the Compose
    providers and by the selector of the Dockerfile provider. *)
Theorem file_kinds_do_not_overlap :
  (forall path,
     match_glob COMPOSE_FILE_GLOB_PATTERN path
     && match_glob DOCKERFILE_GLOB_PATTERN path = false)
  /\ (forall doc,
        selects YAML_MODE_ID doc
        && existsb (fun f => selects f doc) DOCUMENT_SELECTOR = false).
Proof.
  split.
  - intros path.
    destruct (match_glob COMPOSE_FILE_GLOB_PATTERN path) eqn:HC; [|reflexivity].
    destruct (match_glob DOCKERFILE_GLOB_PATTERN path) eqn:HD; [|reflexivity].
    apply compose_glob_paths, compose_path_last in HC.
    apply dockerfile_glob_paths, dockerfile_path_last in HD.
    congruence.
  - intros doc. unfold selects, YAML_MODE_ID, DOCUMENT_SELECTOR, existsb.
    cbn [language scheme pattern agrees].
    destruct (jseqb (str "yaml") (languageId doc)) eqn:HY; [|reflexivity].
    apply jseqb_eq in HY. rewrite <- HY.
    replace (jseqb (str "dockerfile") (str "yaml")) with false
      by (vm_compute; reflexivity).
    simpl. rewrite andb_false_r. reflexivity.
Qed.

End FileClassificationProperties.

(** ** computeConfiguration *)

Module ConfigurationFacts.
Import Configuration ConfigurationShapes.

Section ComputeConfiguration.

Variables Uri WorkspaceConfiguration : Type.
Variable getConfiguration : option jsstring -> option Uri -> WorkspaceConfiguration.

Let step (client : option (LanguageClient Uri)) :=
  fun (acc : option (list WorkspaceConfiguration)) (item : ConfigurationItem) =>
    match acc with
    | None => None
    | Some result =>
        match scopeUri item with
        | Some (u :: us) =>
            match client with
            | Some c =>
                Some (result
                      ++ [getConfiguration (section item)
                            (Some (asUri Uri c (u :: us)))])
            | None => None
            end
        | _ => Some (result ++ [getConfiguration (section item) None])
        end
    end.

Lemma loop_with_client c l : forall result,
  fold_left (step (Some c)) l (Some result)
  = Some (result ++ map (configurationOf Uri WorkspaceConfiguration getConfiguration c) l).
Proof.
  induction l as [|item l IH]; intros result; simpl.
  - rewrite app_nil_r. reflexivity.
  - unfold configurationOf at 1.
    destruct (scopeUri item) as [[|u us]|]; rewrite IH, <- app_assoc; reflexivity.
Qed.

Lemma loop_thrown client l : fold_left (step client) l None = None.
Proof. induction l as [|item l IH]; simpl; auto. Qed.

Lemma loop_without_client l : forall result,
  fold_left (step None) l (Some result)
  = if existsb scoped l then None
    else Some (result
               ++ map (unscopedConfiguration Uri WorkspaceConfiguration
                         getConfiguration) l).
Proof.
  induction l as [|item l IH]; intros result; simpl.
  - rewrite app_nil_r. reflexivity.
  - unfold scoped at 1, unscopedConfiguration at 1.
    destruct (scopeUri item) as [[|u us]|]; simpl;
      rewrite ?loop_thrown, ?IH, <- ?app_assoc; reflexivity.
Qed.

(** X13: with the language client at hand, [computeConfiguration] returns
    one configuration per item, in the order of the items, scoped to the
    converted URI exactly for the items whose [scopeUri] is a string that
    is not empty.  Without the client it throws exactly when some item
    has such a [scopeUri], and returns the unscoped configurations
    otherwise. *)
Theorem computeConfiguration_spec (params : ConfigurationParams) :
  (forall c,
     computeConfiguration Uri WorkspaceConfiguration getConfiguration (Some c) params
     = Some (map (configurationOf Uri WorkspaceConfiguration getConfiguration c)
               (items params)))
  /\ computeConfiguration Uri WorkspaceConfiguration getConfiguration None params
     = (if existsb scoped (items params) then None
        else Some (map (unscopedConfiguration Uri WorkspaceConfiguration
                          getConfiguration) (items params)))
  /\ (forall c item,
        scopeUri item = Some [] ->
        configurationOf Uri WorkspaceConfiguration getConfiguration c item
        = getConfiguration (section item) None).
Proof.
  split; [|split].
  - intros c. unfold computeConfiguration. apply (loop_with_client c _ []).
  - unfold computeConfiguration. apply (loop_without_client _ []).
  - intros c item H. unfold configurationOf. rewrite H. reflexivity.
Qed.

End ComputeConfiguration.

End ConfigurationFacts.
